(** * A UK-academic style assistant: embedding and verification

    The development embeds the two Python modules
    [style_assistant_uk_academic.py] and [uk_academic_humaniser.py]:
    the sentence splitter, the three lexical patterns, the issue
    aggregator [analyse_text], the rewriter [clean_text] and the
    humaniser [humanise_uk_academic].

    A Python [str] is a sequence of code points.  Texts are modelled
    as [string], read as sequences of code points below 256; the
    character classes [\w], [\s] and [str.lower] are the ones CPython
    uses at these code points. *)

From Stdlib Require Import String Ascii List Bool Arith NArith ZArith Lia.
From Stdlib Require Import DecimalString Sorted.
From Stdlib Require Import QArith.
Import ListNotations.
Local Open Scope nat_scope.
Local Open Scope list_scope.
Local Open Scope string_scope.

(** ** Python strings and the character classes of [re] *)

Module Py.

Definition code (c : ascii) : N := N_of_ascii c.

Definition in_range (lo hi : N) (c : ascii) : bool :=
  ((lo <=? code c) && (code c <=? hi))%N.

(** The class [[A-Za-z]]. *)
Definition is_ascii_letter (c : ascii) : bool :=
  in_range 65 90 c || in_range 97 122 c.

(** The class [\w] of a [str] pattern: alphanumeric or underscore. *)
Definition is_word (c : ascii) : bool :=
  in_range 48 57 c || in_range 65 90 c || (code c =? 95)%N ||
  in_range 97 122 c || (code c =? 170)%N || in_range 178 179 c ||
  (code c =? 181)%N || in_range 185 186 c || in_range 188 190 c ||
  in_range 192 214 c || in_range 216 246 c || in_range 248 255 c.

(** The class [\s], which is also what [str.strip] removes. *)
Definition is_space (c : ascii) : bool :=
  in_range 9 13 c || in_range 28 32 c || (code c =? 133)%N ||
  (code c =? 160)%N.

(** The class [[.!?]]. *)
Definition is_terminal (c : ascii) : bool :=
  (c =? ".")%char || (c =? "!")%char || (c =? "?")%char.

(** [str.lower] on one code point. *)
Definition lower_char (c : ascii) : ascii :=
  if in_range 65 90 c || in_range 192 214 c || in_range 216 222 c
  then ascii_of_N (code c + 32)
  else c.

Fixpoint lower (s : string) : string :=
  match s with
  | EmptyString => EmptyString
  | String c s' => String (lower_char c) (lower s')
  end.

(** Truth value of a [str]: non-empty. *)
Definition truthy (s : string) : bool :=
  match s with
  | EmptyString => false
  | String _ _ => true
  end.

Definition head (s : string) : option ascii :=
  match s with
  | EmptyString => None
  | String c _ => Some c
  end.

Fixpoint lstrip (s : string) : string :=
  match s with
  | EmptyString => EmptyString
  | String c s' => if is_space c then lstrip s' else s
  end.

Fixpoint rstrip (s : string) : string :=
  match s with
  | EmptyString => EmptyString
  | String c s' =>
      match rstrip s' with
      | EmptyString => if is_space c then EmptyString else String c EmptyString
      | r => String c r
      end
  end.

(** [str.strip()] *)
Definition strip (s : string) : string := rstrip (lstrip s).

(** [sep.join(ls)] *)
Definition join (sep : string) (ls : list string) : string :=
  String.concat sep ls.

(** [str(n)] for a non-negative [int]. *)
Definition str_of_nat (n : nat) : string :=
  NilEmpty.string_of_uint (Nat.to_uint n).

(** A [dict] built from a literal: entries are inserted in order, a
    repeated key keeps its first position and takes the later value. *)
Definition dict := list (string * string).

Fixpoint dict_set (k v : string) (d : dict) : dict :=
  match d with
  | [] => [(k, v)]
  | (k', v') :: d' =>
      if (k' =? k)%string then (k, v) :: d' else (k', v') :: dict_set k v d'
  end.

Definition dict_literal (entries : list (string * string)) : dict :=
  fold_left (fun d kv => dict_set (fst kv) (snd kv) d) entries [].

Fixpoint dict_get (d : dict) (k : string) : option string :=
  match d with
  | [] => None
  | (k', v) :: d' => if (k' =? k)%string then Some v else dict_get d' k
  end.

Definition dict_get_default (d : dict) (k : string) (default : string) : string :=
  match dict_get d k with
  | Some v => v
  | None => default
  end.

Definition keys (d : dict) : list string := map fst d.

End Py.

(** ** The fragment of [re] the program uses *)

Module Re.
Import Py.

Definition opt_word (o : option ascii) : bool :=
  match o with
  | Some c => is_word c
  | None => false
  end.

(** [\b] between the character before and the character after the
    current position; outside the text counts as a non-word. *)
Definition word_boundary (prev next : option ascii) : bool :=
  xorb (opt_word prev) (opt_word next).

(** One literal character of a pattern against one character of the
    text, with or without [re.IGNORECASE].  Among the code points below
    256, which are all a text of this model holds, a letter of a pattern
    matches the characters with the same [str.lower].  CPython matches a
    few code points above 255 against ASCII letters as well (U+017F
    against s, U+0130 and U+0131 against i, U+212A against k); no text
    of the model holds them. *)
Definition char_matches (ignorecase : bool) (p c : ascii) : bool :=
  if ignorecase then (lower_char p =? lower_char c)%char else (p =? c)%char.

(** An escaped literal [k] at the start of [s]: the matched text and
    what follows it. *)
Fixpoint match_literal (ignorecase : bool) (k s : string)
  : option (string * string) :=
  match k with
  | EmptyString => Some (EmptyString, s)
  | String p k' =>
      match s with
      | EmptyString => None
      | String c s' =>
          if char_matches ignorecase p c then
            match match_literal ignorecase k' s' with
            | Some (m, r) => Some (String c m, r)
            | None => None
            end
          else None
      end
  end.

Fixpoint last_char (prev : option ascii) (m : string) : option ascii :=
  match m with
  | EmptyString => prev
  | String c m' => last_char (Some c) m'
  end.

(** The group [(k1|k2|...)] followed by [\b]: alternatives are tried in
    order, and an alternative whose closing [\b] fails is abandoned for
    the next one. *)
Fixpoint match_alt (ignorecase : bool) (alts : list string)
  (prev : option ascii) (s : string) : option (string * string) :=
  match alts with
  | [] => None
  | k :: ks =>
      match match_literal ignorecase k s with
      | Some (m, r) =>
          if word_boundary (last_char prev m) (head r) then Some (m, r)
          else match_alt ignorecase ks prev s
      | None => match_alt ignorecase ks prev s
      end
  end.

(** The pattern [\b(k1|k2|...)\b] at the current position. *)
Definition match_here (ignorecase : bool) (alts : list string)
  (prev : option ascii) (s : string) : option (string * string) :=
  if word_boundary prev (head s) then match_alt ignorecase alts prev s
  else None.

(** [pattern.finditer(s)]: the non-overlapping matches from left to
    right, each with its start offset and its text [group(0)].  After a
    match the scan resumes behind it: [skip] counts the characters of
    the last match still to pass.  The alternatives are non-empty, so
    every match is, and none starts at the end of the text. *)
Fixpoint finditer_from (ignorecase : bool) (alts : list string)
  (prev : option ascii) (pos skip : nat) (s : string) : list (nat * string) :=
  match s with
  | EmptyString => []
  | String c s' =>
      match skip with
      | S n => finditer_from ignorecase alts (Some c) (S pos) n s'
      | O =>
          match match_here ignorecase alts prev s with
          | Some (m, _) =>
              (pos, m) ::
              finditer_from ignorecase alts (Some c) (S pos) (pred (String.length m)) s'
          | None => finditer_from ignorecase alts (Some c) (S pos) 0 s'
          end
      end
  end.

Definition finditer (ignorecase : bool) (alts : list string) (s : string)
  : list (nat * string) :=
  finditer_from ignorecase alts None 0 0 s.

(** [pattern.sub(repl, s)] with a function [repl] of the matched text. *)
Fixpoint sub_from (ignorecase : bool) (alts : list string)
  (repl : string -> string) (prev : option ascii) (skip : nat) (s : string)
  : string :=
  match s with
  | EmptyString => EmptyString
  | String c s' =>
      match skip with
      | S n => sub_from ignorecase alts repl (Some c) n s'
      | O =>
          match match_here ignorecase alts prev s with
          | Some (m, _) =>
              repl m ++
              sub_from ignorecase alts repl (Some c) (pred (String.length m)) s'
          | None => String c (sub_from ignorecase alts repl (Some c) 0 s')
          end
      end
  end.

Definition sub (ignorecase : bool) (alts : list string)
  (repl : string -> string) (s : string) : string :=
  sub_from ignorecase alts repl None 0 s.

(** The longest prefix of word characters, and the rest. *)
Fixpoint span_word (s : string) : string * string :=
  match s with
  | EmptyString => (EmptyString, EmptyString)
  | String c s' =>
      if is_word c then
        let (w, r) := span_word s' in (String c w, r)
      else (EmptyString, s)
  end.

(** The pattern [\w+('\w+)?] at the current position: [group(0)]
    and, when the group took part, [group(1)].  Both
    repetitions are greedy and what follows them cannot fail, so each
    takes the longest run. *)
Definition match_token (s : string) : option (string * option string) :=
  match span_word s with
  | (EmptyString, _) => None
  | (w, r) =>
      match r with
      | EmptyString => Some (w, None)
      | String c r' =>
          if (c =? "'")%char then
            match span_word r' with
            | (EmptyString, _) => Some (w, None)
            | (w2, _) => Some (w ++ String "'" w2, Some (String "'" w2))
            end
          else Some (w, None)
      end
  end.

Fixpoint token_matches_from (skip : nat) (s : string)
  : list (string * option string) :=
  match s with
  | EmptyString => []
  | String c s' =>
      match skip with
      | S n => token_matches_from n s'
      | O =>
          match match_token s with
          | Some m => m :: token_matches_from (pred (String.length (fst m))) s'
          | None => token_matches_from 0 s'
          end
      end
  end.

(** [re.findall(r"\w+('\w+)?", s)]: the pattern has one group, so
    [findall] returns the text of that group for every match, and the
    empty string where the group took no part. *)
Definition findall_token_group (s : string) : list string :=
  map (fun m => match snd m with Some g => g | None => EmptyString end)
      (token_matches_from 0 s).

(** [re.sub(r"([.!?])([A-Za-z])", r"\1 \2", s)] *)
Fixpoint space_after_terminal (s : string) : string :=
  match s with
  | EmptyString => EmptyString
  | String c s' =>
      match s' with
      | EmptyString => s
      | String d s'' =>
          if is_terminal c && is_ascii_letter d
          then String c (String " " (String d (space_after_terminal s'')))
          else String c (space_after_terminal s')
      end
  end.

(** [re.split(r"([.!?])", s)]: the pieces between the marks, with the
    marks themselves in between. *)
Fixpoint split_terminal (s : string) : list string :=
  match s with
  | EmptyString => [EmptyString]
  | String c s' =>
      if is_terminal c then
        EmptyString :: String c EmptyString :: split_terminal s'
      else
        match split_terminal s' with
        | p :: ps => String c p :: ps
        | [] => [String c EmptyString]
        end
  end.

(** [re.sub(r"\s+", " ", s)] *)
Fixpoint collapse_spaces_from (in_run : bool) (s : string) : string :=
  match s with
  | EmptyString => EmptyString
  | String c s' =>
      if is_space c then
        if in_run then collapse_spaces_from true s'
        else String " " (collapse_spaces_from true s')
      else String c (collapse_spaces_from false s')
  end.

Definition collapse_spaces (s : string) : string :=
  collapse_spaces_from false s.

End Re.

(** ** style_assistant_uk_academic.py *)

Module StyleAssistant.
Import Py Re.

(** The entries of the [CONTRACTION_MAP] literal, as written. *)
Definition CONTRACTION_ENTRIES : list (string * string) :=
  [ ("don't", "do not");
    ("doesn't", "does not");
    ("didn't", "did not");
    ("can't", "cannot");
    ("cannot", "cannot");
    ("won't", "will not");
    ("isn't", "is not");
    ("aren't", "are not");
    ("wasn't", "was not");
    ("weren't", "were not");
    ("hasn't", "has not");
    ("haven't", "have not");
    ("hadn't", "had not");
    ("wouldn't", "would not");
    ("shouldn't", "should not");
    ("couldn't", "could not");
    ("I'm", "I am");
    ("I'm", "I am");
    ("you're", "you are");
    ("we're", "we are");
    ("they're", "they are");
    ("it's", "it is");
    ("that's", "that is");
    ("there's", "there is");
    ("I've", "I have");
    ("you've", "you have");
    ("we've", "we have");
    ("they've", "they have");
    ("I'll", "I will");
    ("you'll", "you will");
    ("we'll", "we will");
    ("they'll", "they will") ].

Definition CONTRACTION_MAP : dict :=
  Eval cbv in dict_literal CONTRACTION_ENTRIES.

Definition INFORMAL_MAP : dict :=
  Eval cbv in dict_literal
  [ ("really", "highly / very (consider more precise wording)");
    ("very", "intensely / extremely (or remove if unnecessary)");
    ("a lot", "a substantial amount");
    ("lots of", "many / numerous");
    ("stuff", "material / content / items (be specific)");
    ("things", "aspects / factors / elements (be specific)");
    ("kids", "children");
    ("big", "significant / substantial");
    ("huge", "major / considerable");
    ("basically", "fundamentally / essentially (or remove)");
    ("pretty", "fairly / relatively (or remove)");
    ("kind of", "somewhat / to some extent");
    ("sort of", "somewhat / to some extent");
    ("gonna", "going to");
    ("wanna", "want to") ].

(** A compiled pattern [\b(k1|k2|...)\b]: its alternatives in order and
    whether [re.IGNORECASE] is set. *)
Record pattern : Type := mkPattern {
  alternatives : list string;
  ignorecase : bool
}.

Definition pattern_finditer (p : pattern) (s : string) : list (nat * string) :=
  finditer (ignorecase p) (alternatives p) s.

Definition pattern_sub (p : pattern) (repl : string -> string) (s : string)
  : string :=
  sub (ignorecase p) (alternatives p) repl s.

Definition INFORMAL_PATTERN : pattern :=
  mkPattern (keys INFORMAL_MAP) true.

(** Compiled without flags: the match is case-sensitive. *)
Definition CONTRACTION_PATTERN : pattern :=
  mkPattern (keys CONTRACTION_MAP) false.

Definition FIRST_PERSON_PATTERN : pattern :=
  mkPattern ["I"; "we"; "We"; "our"; "Our"; "us"] false.

Fixpoint join_sentences (parts : list string) : list string :=
  match parts with
  | a :: b :: rest =>
      let s := strip (a ++ b) in
      ((if truthy s then [s] else []) ++ join_sentences rest)%list
  | _ => []
  end.

(** Crude sentence splitter. *)
Definition split_sentences (text : string) : list string :=
  let text := space_after_terminal text in
  let parts := split_terminal text in
  let sentences := join_sentences parts in
  if Nat.odd (List.length parts) && truthy (strip (last parts ""))
  then (sentences ++ [strip (last parts "")])%list
  else sentences.

Inductive issue_type : Type :=
  | long_sentence
  | short_sentence
  | contraction
  | informal
  | first_person
  | repeated_start.

Definition issue_type_eqb (a b : issue_type) : bool :=
  match a, b with
  | long_sentence, long_sentence
  | short_sentence, short_sentence
  | contraction, contraction
  | informal, informal
  | first_person, first_person
  | repeated_start, repeated_start => true
  | _, _ => false
  end.

(** An issue is a [dict] with these four keys. *)
Record issue : Type := mkIssue {
  type : issue_type;
  sentence_index : nat;
  message : string;
  extract : string
}.

Definition length_issues (idx : nat) (s : string) (word_count : nat)
  : list issue :=
  if (35 <? word_count)%nat then
    [ mkIssue long_sentence idx
        ("Sentence " ++ str_of_nat idx ++ " is quite long (" ++
         str_of_nat word_count ++ " words). " ++
         "Consider splitting it for clarity.") s ]
  else if (word_count <? 7)%nat then
    [ mkIssue short_sentence idx
        ("Sentence " ++ str_of_nat idx ++ " is very short (" ++
         str_of_nat word_count ++ " words). " ++
         "In academic writing, you may wish to combine it with a neighbouring sentence.") s ]
  else [].

Definition contraction_issue (idx : nat) (s : string) (m : nat * string)
  : issue :=
  mkIssue contraction idx
    ("Contraction '" ++ snd m ++ "' found in sentence " ++ str_of_nat idx ++
     ". " ++ "Consider using the full form in academic writing.") s.

Definition informal_issue (idx : nat) (s : string) (m : nat * string)
  : issue :=
  let w := snd m in
  let suggestion :=
    dict_get_default INFORMAL_MAP (lower w)
      "Consider a more precise alternative." in
  mkIssue informal idx
    ("Informal or vague word '" ++ w ++ "' in sentence " ++ str_of_nat idx ++
     ". " ++ suggestion) s.

Definition first_person_issue (idx : nat) (s : string) (m : nat * string)
  : issue :=
  mkIssue first_person idx
    ("First-person pronoun '" ++ snd m ++ "' in sentence " ++ str_of_nat idx ++
     ". " ++ "Check if this is appropriate for your assignment guidelines.") s.

(** The issues one pass of the loop body appends for sentence [idx]. *)
Definition sentence_issues (idx : nat) (s : string) (words : list string)
  : list issue :=
  (length_issues idx s (List.length words) ++
   map (contraction_issue idx s) (pattern_finditer CONTRACTION_PATTERN s) ++
   map (informal_issue idx s) (pattern_finditer INFORMAL_PATTERN s) ++
   map (first_person_issue idx s) (pattern_finditer FIRST_PERSON_PATTERN s))%list.

(** The sentence start the loop body records from [words]. *)
Definition sentence_start (words : list string) : string :=
  if (2 <=? List.length words)%nat then lower (join " " (firstn 2 words))
  else match words with
       | w :: _ => lower w
       | [] => ""
       end.

(** The first loop: [issues] and [starts] grow by appending. *)
Fixpoint sentence_loop (idx : nat) (sentences : list string)
  (issues : list issue) (starts : list string)
  : list issue * list string :=
  match sentences with
  | [] => (issues, starts)
  | s :: rest =>
      let words := findall_token_group s in
      sentence_loop (S idx) rest
        (issues ++ sentence_issues idx s words)%list
        (starts ++ [sentence_start words])%list
  end.

(** [collections.Counter(starts)[start]] *)
Definition counter (starts : list string) (start : string) : nat :=
  count_occ string_dec starts start.

Definition repeated_start_issue (sentences : list string) (idx : nat)
  (start : string) : issue :=
  mkIssue repeated_start idx
    ("Several sentences start with '" ++ start ++ "'. " ++
     "Varying openings can improve academic style and flow.")
    (nth (idx - 1) sentences "").

(** The second loop, over [enumerate(starts, start=1)]. *)
Fixpoint repeated_loop (sentences all_starts : list string) (idx : nat)
  (starts : list string) (issues : list issue) : list issue :=
  match starts with
  | [] => issues
  | start :: rest =>
      repeated_loop sentences all_starts (S idx) rest
        (if truthy start && (2 <? counter all_starts start)%nat
         then (issues ++ [repeated_start_issue sentences idx start])%list
         else issues)
  end.

(** The opening keys [analyse_text] collects in [starts]. *)
Definition recorded_starts (text : string) : list string :=
  snd (sentence_loop 1 (split_sentences text) [] []).

Definition analyse_text (text : string) : list string * list issue :=
  let sentences := split_sentences text in
  let '(issues, starts) := sentence_loop 1 sentences [] [] in
  (sentences, repeated_loop sentences starts 1 starts issues).

Section Clean.

(** [textwrap.fill] belongs to the Python library; the rewriter only
    hands it the flattened text and the width. *)
Variable fill : string -> Z -> string.

Definition repl_contraction (word : string) : string :=
  dict_get_default CONTRACTION_MAP word
    (dict_get_default CONTRACTION_MAP (lower word) word).

Definition repl_informal (word : string) : string :=
  let key := lower word in
  match dict_get INFORMAL_MAP key with
  | Some suggestion =>
      if truthy suggestion then word ++ " (" ++ suggestion ++ ")" else word
  | None => word
  end.

(** The contraction step of the rewriter. *)
Definition expand_contractions (text : string) : string :=
  pattern_sub CONTRACTION_PATTERN repl_contraction text.

(** The rewritten text before it is wrapped. *)
Definition clean_flat (text : string) : string :=
  let cleaned := expand_contractions text in
  let cleaned := pattern_sub INFORMAL_PATTERN repl_informal cleaned in
  strip (collapse_spaces cleaned).

Definition clean_text (text : string) (wrap : Z) : string :=
  fill (clean_flat text) wrap.

End Clean.

(** The value of [issue["type"]]. *)
Definition type_name (t : issue_type) : string :=
  match t with
  | long_sentence => "long_sentence"
  | short_sentence => "short_sentence"
  | contraction => "contraction"
  | informal => "informal"
  | first_person => "first_person"
  | repeated_start => "repeated_start"
  end.

(** Standard output is the text written to it; [print(s)] writes [s] and
    a line feed. *)
Definition line_feed : string := String "010" EmptyString.

Definition print (s : string) : string := s ++ line_feed.

(** ["-" * n] *)
Fixpoint dashes (n : nat) : string :=
  match n with
  | O => EmptyString
  | S n' => String "-" (dashes n')
  end.

(** The loop over [enumerate(issues, start=1)]. *)
Fixpoint print_issues (i : nat) (issues : list issue) : string :=
  match issues with
  | [] => EmptyString
  | issue :: rest =>
      print ("Issue " ++ str_of_nat i ++ ": [" ++ type_name (type issue) ++ "]") ++
      print (message issue) ++
      print ("Sentence: " ++ extract issue) ++
      print (dashes 60) ++
      print_issues (S i) rest
  end.

Definition print_report (sentences : list string) (issues : list issue)
  : string :=
  print ("=== Style Analysis (UK Academic) ===" ++ line_feed) ++
  print ("Total sentences: " ++ str_of_nat (List.length sentences)) ++
  print ("Total issues found: " ++ str_of_nat (List.length issues) ++ line_feed) ++
  match issues with
  | [] => print "No major style issues detected based on the current checks."
  | _ => print_issues 1 issues
  end.

Section Main.

Variable fill : string -> Z -> string.

(** The parsed command line: the flags [--clean] and [--nowrap]. *)
Record arguments : Type := mkArguments {
  clean : bool;
  nowrap : bool
}.

(** [x or default] for an optional [int]. *)
Definition or_else (x : option Z) (default : Z) : Z :=
  match x with
  | Some w => if (w =? 0)%Z then default else w
  | None => default
  end.

(** [main], from the parsed arguments, whether standard input is a
    terminal and what is read from it, to what is printed. *)
Definition main (args : arguments) (isatty : bool) (stdin : string) : string :=
  (if isatty
   then print ("Paste your text below. End input with Ctrl+D (Linux/macOS) or Ctrl+Z then Enter (Windows):" ++ line_feed)
   else EmptyString) ++
  let text := stdin in
  if negb (truthy (strip text)) then print "No input text received."
  else
    let '(sentences, issues) := analyse_text text in
    print_report sentences issues ++
    (if clean args then
       print (line_feed ++ "=== Cleaned Version (suggested) ===" ++ line_feed) ++
       let wrap_width := if nowrap args then None else Some 90%Z in
       let cleaned := clean_text fill text (or_else wrap_width 90) in
       print cleaned
     else EmptyString).

End Main.

End StyleAssistant.

(** ** uk_academic_humaniser.py *)

Module Humaniser.
Import Py Re.

Definition ACADEMIC_CONNECTORS : list string :=
  [ "Moreover, ";
    "Furthermore, ";
    "In addition, ";
    "It is also important to note that ";
    "However, ";
    "Consequently, ";
    "Therefore, " ].

(** Each pattern is [\b] phrase [\b]; the table keeps the phrase and its
    replacement. *)
Definition LIGHT_REPHRASINGS : list (string * string) :=
  [ ("in conclusion", "overall");
    ("therefore", "therefore");
    ("moreover", "moreover");
    ("furthermore", "furthermore");
    ("in addition", "in addition");
    ("to summarise", "to summarise") ].

Fixpoint join_sentences (parts : list string) : list string :=
  match parts with
  | a :: b :: rest =>
      let s := strip (a ++ b) in
      ((if truthy s then [s] else []) ++ join_sentences rest)%list
  | _ => []
  end.

(** Crude sentence splitter (the module has its own copy). *)
Definition split_sentences (text : string) : list string :=
  let text := space_after_terminal text in
  let parts := split_terminal text in
  let sentences := join_sentences parts in
  if Nat.odd (List.length parts) && truthy (strip (last parts ""))
  then (sentences ++ [strip (last parts "")])%list
  else sentences.

(** [re.sub(pattern, replacement, text, flags=re.IGNORECASE)] *)
Definition rephrase (text : string) (entry : string * string) : string :=
  sub true [fst entry] (fun _ => snd entry) text.

Definition apply_light_rephrasings (text : string) : string :=
  fold_left rephrase LIGHT_REPHRASINGS text.

(** The literal [0.35] as the binary64 value it denotes. *)
Definition THRESHOLD : Q := 3152519739159347 # 9007199254740992.

Definition Qltb (x y : Q) : bool := negb (Qle_bool y x).

Inductive outcome (A : Type) : Type :=
  | Returned (a : A)
  | IndexError.
Arguments Returned {A} a.
Arguments IndexError {A}.

Section Random.

(** The state of the module-level generator of [random], with the two
    draws the program makes: [random.random()], a float of [[0, 1)], and
    the index [random.choice] picks below the length of its argument. *)
Variable G : Type.
Variable random : G -> Q * G.
Variable randbelow : nat -> G -> nat * G.

(** [textwrap.fill] of the Python library. *)
Variable fill : string -> Z -> string.

(** Computations that draw random numbers and may raise. *)
Definition M (A : Type) : Type := G -> outcome A * G.

Definition ret {A : Type} (a : A) : M A := fun g => (Returned a, g).

Definition bind {A B : Type} (c : M A) (k : A -> M B) : M B :=
  fun g =>
    match c g with
    | (Returned a, g') => k a g'
    | (IndexError, g') => (IndexError, g')
    end.

Notation "x <- c ;; k" := (bind c (fun x => k))
  (at level 61, c at next level, right associativity).

Definition random_random : M Q :=
  fun g => let (r, g') := random g in (Returned r, g').

Definition random_choice (seq : list string) : M string :=
  fun g =>
    let (i, g') := randbelow (List.length seq) g in
    match nth_error seq i with
    | Some x => (Returned x, g')
    | None => (IndexError, g')
    end.

(** [s[0]] *)
Definition first_char (s : string) : M string :=
  match s with
  | EmptyString => fun g => (IndexError, g)
  | String c _ => ret (String c EmptyString)
  end.

(** [s[1:]] *)
Definition tail (s : string) : string :=
  match s with
  | EmptyString => EmptyString
  | String _ s' => s'
  end.

Definition academic_tone (sentence : string) (idx total : nat) : M string :=
  let original := sentence in
  let s := apply_light_rephrasings sentence in
  s <- (if (0 <? idx)%nat && (idx <? total)%nat then
          r <- random_random ;;
          if Qltb r THRESHOLD then
            connector <- random_choice ACADEMIC_CONNECTORS ;;
            c <- first_char s ;;
            ret (connector ++ lower c ++ tail s)
          else ret s
        else ret s) ;;
  ret (if truthy s then s else original).

(** The loop over [enumerate(sentences)]; [new] grows by appending. *)
Fixpoint tone_loop (total idx : nat) (sentences new : list string)
  : M (list string) :=
  match sentences with
  | [] => ret new
  | s :: rest =>
      t <- academic_tone s idx total ;;
      tone_loop total (S idx) rest (new ++ [t])%list
  end.

Definition humanise_uk_academic (text : string) (wrap : Z) : M string :=
  let text := strip (collapse_spaces text) in
  if negb (truthy text) then ret ""
  else
    let sentences := split_sentences text in
    new <- tone_loop (List.length sentences) 0 sentences [] ;;
    ret (fill (join " " new) wrap).

End Random.

Section HumaniserMain.

Variable G : Type.
Variable random : G -> Q * G.
Variable randbelow : nat -> G -> nat * G.
Variable fill : string -> Z -> string.

(** [main]: from what is read from standard input to what is printed. *)
Definition main (stdin : string) : M G string :=
  bind G (humanise_uk_academic G random randbelow fill stdin 90)
    (fun out =>
       ret G
         ("Paste text to humanise (Ctrl+D to finish):" ++ String "010" "" ++
          String "010" "" ++
          String "010" "" ++ "--- Humanised (UK Academic Tone) ---" ++
          String "010" "" ++ String "010" "" ++
          out ++ String "010" "")).

End HumaniserMain.

End Humaniser.

(** ** Verification *)

Import Py Re StyleAssistant.

(** *** Notions used in the statements *)

Definition example_text : string :=
  "I don't think it's a big deal. This is fine.".

Definition example_issues : list issue :=
  [ mkIssue contraction 1
      "Contraction 'don't' found in sentence 1. Consider using the full form in academic writing."
      "I don't think it's a big deal.";
    mkIssue contraction 1
      "Contraction 'it's' found in sentence 1. Consider using the full form in academic writing."
      "I don't think it's a big deal.";
    mkIssue informal 1
      "Informal or vague word 'big' in sentence 1. significant / substantial"
      "I don't think it's a big deal.";
    mkIssue first_person 1
      "First-person pronoun 'I' in sentence 1. Check if this is appropriate for your assignment guidelines."
      "I don't think it's a big deal.";
    mkIssue short_sentence 2
      "Sentence 2 is very short (3 words). In academic writing, you may wish to combine it with a neighbouring sentence."
      "This is fine." ].

(** The issues of one type, as (sentence index, message) in the order
    they were appended. *)
Definition issues_of (t : issue_type) (issues : list issue) : list issue :=
  filter (fun i => issue_type_eqb (type i) t) issues.

Definition indices_of (t : issue_type) (issues : list issue) : list nat :=
  map sentence_index (issues_of t issues).

Fixpoint has_terminal (s : string) : bool :=
  match s with
  | EmptyString => false
  | String c s' => is_terminal c || has_terminal s'
  end.

(** [enumerate(l, start=idx)] *)
Fixpoint enumerate (idx : nat) (l : list string) : list (nat * string) :=
  match l with
  | [] => []
  | x :: l' => (idx, x) :: enumerate (S idx) l'
  end.

(** What the first loop appends for one enumerated sentence. *)
Definition issues_at (p : nat * string) : list issue :=
  sentence_issues (fst p) (snd p) (findall_token_group (snd p)).

Definition short_issue (idx word_count : nat) (s : string) : issue :=
  mkIssue short_sentence idx
    ("Sentence " ++ str_of_nat idx ++ " is very short (" ++
     str_of_nat word_count ++ " words). " ++
     "In academic writing, you may wish to combine it with a neighbouring sentence.") s.

(** The sentences the splitter builds from the pieces: the joined pairs,
    then the trailing fragment. *)
Definition assemble (parts : list string) : list string :=
  (join_sentences parts ++
   (if Nat.odd (List.length parts) && truthy (strip (last parts ""))
    then [strip (last parts "")] else []))%list.

Fixpoint all_space (s : string) : bool :=
  match s with
  | EmptyString => true
  | String c s' => is_space c && all_space s'
  end.

(** A sentence that ends with its terminal mark, and a trailing
    fragment without one. *)
Definition closed_sentence (s : string) : Prop :=
  exists body m,
    s = body ++ String m "" /\ has_terminal body = false /\
    is_terminal m = true /\ strip s = s.

Definition open_sentence (s : string) : Prop :=
  has_terminal s = false /\ strip s = s /\ truthy s = true.

Inductive sentence_list : list string -> Prop :=
  | sentences_nil : sentence_list []
  | sentences_open s : open_sentence s -> sentence_list [s]
  | sentences_closed s l :
      closed_sentence s -> sentence_list l -> sentence_list (s :: l).

Fixpoint all_word (s : string) : bool :=
  match s with
  | EmptyString => true
  | String c s' => is_word c && all_word s'
  end.

(** The run of word characters a text starts with. *)
Definition first_word (s : string) : string := fst (span_word s).

(** [w] stands in [s] at offset [p] as a whole word: the character
    before it, if any, and the character after it, if any, are not word
    characters. *)
Definition whole_word_at (s : string) (p : nat) (w : string) : Prop :=
  exists pre post,
    s = pre ++ w ++ post /\ String.length pre = p /\
    opt_word (last_char None pre) = false /\ opt_word (head post) = false.

(** The same from a scanning position: [prev] is the character before
    [s], which starts at offset [pos]. *)
Definition whole_word_from (prev : option ascii) (pos : nat) (s : string)
  (p : nat) (w : string) : Prop :=
  exists pre post,
    s = pre ++ w ++ post /\ p = pos + String.length pre /\
    opt_word (last_char prev pre) = false /\ opt_word (head post) = false.

Definition FIRST_PERSON_FORMS : list string :=
  ["I"; "we"; "We"; "our"; "Our"; "us"].

(** The first-person issues of one enumerated sentence. *)
Definition first_person_issues_at (p : nat * string) : list issue :=
  map (first_person_issue (fst p) (snd p))
      (pattern_finditer FIRST_PERSON_PATTERN (snd p)).

(** The contraction step from a scanning position. *)
Definition expand_from (prev : option ascii) (s : string) : string :=
  sub_from false (keys CONTRACTION_MAP) repl_contraction prev 0 s.

(** All the ways of cutting a text in two. *)
Fixpoint splits (s : string) : list (string * string) :=
  match s with
  | EmptyString => [(EmptyString, EmptyString)]
  | String c s' =>
      (EmptyString, s) ::
      map (fun vu => (String c (fst vu), snd vu)) (splits s')
  end.

Definition same_head (a b : string) : bool :=
  match head a, head b with
  | Some x, Some y => (x =? y)%char
  | _, _ => false
  end.

(** Every key starts and ends with a word character, and its expansion
    is non-empty, starts with the same character and ends with a word
    character. *)
Definition key_shape_check : bool :=
  forallb (fun k =>
    opt_word (head k) && opt_word (last_char None k) &&
    same_head (repl_contraction k) k &&
    opt_word (last_char None (repl_contraction k)))
    (keys CONTRACTION_MAP).

(** Where a key has a non-word character, what follows it in the key is
    a run of word characters that is the first word of no expansion. *)
Definition key_suffix_check : bool :=
  forallb (fun k =>
    forallb (fun vu =>
      if truthy (fst vu) && negb (opt_word (last_char None (fst vu)))
      then all_word (snd vu) &&
           forallb (fun m =>
             negb (first_word (repl_contraction m) =? snd vu)%string)
             (keys CONTRACTION_MAP)
      else true) (splits k))
    (keys CONTRACTION_MAP).

(** The key [k] could match at the cut [v|u] of an expansion that is
    followed by a non-word character or by nothing. *)
Definition key_fits (v u k : string) : bool :=
  word_boundary (last_char None v) (head u) &&
  ((match match_literal false k u with
    | Some (_, rest) => negb (opt_word (head rest))
    | None => false
    end) ||
   (match match_literal false u k with
    | Some (_, String x _) => negb (is_word x)
    | _ => false
    end)).

(** A key of the table that is its own expansion. *)
Definition fixed_key (e : string) : bool :=
  existsb (String.eqb e) (keys CONTRACTION_MAP) &&
  (repl_contraction e =? e)%string.

(** No key fits anywhere inside an expansion, unless the expansion is
    itself a key that is its own expansion. *)
Definition expansion_check : bool :=
  forallb (fun m =>
    let e := repl_contraction m in
    fixed_key e ||
    forallb (fun vu =>
      negb (truthy (snd vu)) ||
      forallb (fun k => negb (key_fits (fst vu) (snd vu) k))
        (keys CONTRACTION_MAP)) (splits e))
    (keys CONTRACTION_MAP).

(** A key that is its own expansion is a single word, and no key
    continues it with a non-word character. *)
Definition fixed_key_check : bool :=
  forallb (fun m =>
    negb (fixed_key m) ||
    (all_word m &&
     forallb (fun k =>
       match match_literal false m k with
       | Some (_, String x _) => is_word x
       | _ => true
       end) (keys CONTRACTION_MAP)))
    (keys CONTRACTION_MAP).

(** The reason the specification gives for idempotence: no expansion
    of the table contains a key of the table as a whole word. *)
Definition expansions_free_of_keys : Prop :=
  forall k v,
    In (k, v) CONTRACTION_MAP ->
    pattern_finditer CONTRACTION_PATTERN v = [].

(** Idempotence of the contraction step together with that reason. *)
Definition idempotent_for_lack_of_keys : Prop :=
  (forall text,
     expand_contractions (expand_contractions text) =
     expand_contractions text) /\
  expansions_free_of_keys.

(** Every key found as a whole word in an expansion of the table is
    "cannot". *)
Definition expansion_keys_check : bool :=
  forallb (fun kv =>
    forallb (fun m => (snd m =? "cannot")%string)
      (pattern_finditer CONTRACTION_PATTERN (snd kv)))
    CONTRACTION_MAP.

(** The text without its whitespace characters. *)
Fixpoint drop_spaces (s : string) : string :=
  match s with
  | EmptyString => EmptyString
  | String c s' =>
      if is_space c then drop_spaces s' else String c (drop_spaces s')
  end.

Fixpoint count_terminal (s : string) : nat :=
  match s with
  | EmptyString => 0
  | String c s' => (if is_terminal c then 1 else 0) + count_terminal s'
  end.

(** The test of the second loop: the key is non-empty and was recorded
    more than twice. *)
Definition repeated_key (starts : list string) (p : nat * string) : bool :=
  truthy (snd p) && (2 <? counter starts (snd p))%nat.

(** The number of tokens the first loop counts in a sentence. *)
Definition word_count (s : string) : nat :=
  List.length (findall_token_group s).

(** Every whitespace character is a plain space and no two of them are
    adjacent; [after_space] tells that the character before is one. *)
Fixpoint single_spaced_from (after_space : bool) (s : string) : bool :=
  match s with
  | EmptyString => true
  | String c s' =>
      if is_space c
      then (c =? " ")%char && negb after_space && single_spaced_from true s'
      else single_spaced_from false s'
  end.

Definition single_spaced (s : string) : bool := single_spaced_from false s.

(** The keys of the informal table are in lower case and each has a
    non-empty suggestion. *)
Definition informal_table_check : bool :=
  forallb (fun k =>
    (lower k =? k)%string &&
    match dict_get INFORMAL_MAP k with
    | Some v => truthy v
    | None => false
    end) (keys INFORMAL_MAP).

(** Every key of the contraction table has an expansion, and the
    expansion is the key itself or differs from it before either ends. *)
Definition contraction_table_check : bool :=
  forallb (fun k =>
    match dict_get CONTRACTION_MAP k with
    | Some v =>
        (v =? k)%string ||
        (match match_literal false k v, match_literal false v k with
         | None, None => true
         | _, _ => false
         end)
    | None => false
    end) (keys CONTRACTION_MAP).

(** The only key that is its own expansion is "cannot". *)
Definition fixed_key_is_cannot_check : bool :=
  forallb (fun k =>
    negb (repl_contraction k =? k)%string || (k =? "cannot")%string)
    (keys CONTRACTION_MAP).

(** A text with its first character in lower case. *)
Definition decapitalised (s : string) : string :=
  match s with
  | EmptyString => EmptyString
  | String c r => String (lower_char c) r
  end.

(** What the humaniser may make of a sentence: its light rephrasing,
    or a connector followed by the decapitalised rephrasing. *)
Definition with_connector (s t : string) : Prop :=
  exists connector,
    In connector Humaniser.ACADEMIC_CONNECTORS /\
    t = connector ++ decapitalised (Humaniser.apply_light_rephrasings s).

Definition toned (s t : string) : Prop :=
  t = Humaniser.apply_light_rephrasings s \/ with_connector s t.

(** The four lines printed for issue number [i]. *)
Definition issue_block (i : nat) (x : issue) : string :=
  print ("Issue " ++ str_of_nat i ++ ": [" ++ type_name (type x) ++ "]") ++
  print (message x) ++
  print ("Sentence: " ++ extract x) ++
  print (dashes 60).

(** The contraction and the informal issues of one enumerated sentence. *)
Definition contraction_issues_at (p : nat * string) : list issue :=
  map (contraction_issue (fst p) (snd p))
      (pattern_finditer CONTRACTION_PATTERN (snd p)).

Definition informal_issues_at (p : nat * string) : list issue :=
  map (informal_issue (fst p) (snd p))
      (pattern_finditer INFORMAL_PATTERN (snd p)).

(** *** Worked inputs *)

(** C4.  On the input "I don't think it's a big deal. This is fine." the
    analysis returns the two sentences and exactly five issues: the
    contractions "don't" and "it's", the informal word "big" and the
    first-person pronoun "I" in sentence 1, and a short-sentence issue
    for sentence 2 with 3 words. *)
Theorem analyse_text_example :
  analyse_text example_text =
  (["I don't think it's a big deal."; "This is fine."], example_issues).
Proof. vm_compute. reflexivity. Qed.

(** C1.  The opening key recorded for a sentence beginning "The results"
    is a single space, not "the results": [findall] hands back the text
    of the apostrophe group of each token, which is empty for "The" and
    for "results", and the key is the join of these two empty strings. *)
Theorem opening_key_the_results :
  findall_token_group "The results are clear." = [""; ""; ""; ""] /\
  recorded_starts "The results are clear." = [" "] /\
  recorded_starts "The results are clear." <> ["the results"].
Proof. repeat split; try (vm_compute; reflexivity). vm_compute. discriminate. Qed.

(** C2.  Four sentences that all start "The results" are each reported
    as a repeated start.  But in a document where the opening "The
    results" occurs exactly twice and a third sentence opens differently,
    all three sentences are reported as well: each one records the same
    key, a single space, which therefore occurs three times. *)
Theorem repeated_start_on_two_openings :
  let text := "The results are good. The results are bad. A cat sat here." in
  indices_of repeated_start
    (snd (analyse_text
       "The results are in. The results hold. The results vary. The results end."))
    = [1; 2; 3; 4] /\
  fst (analyse_text text) =
    ["The results are good."; "The results are bad."; "A cat sat here."] /\
  recorded_starts text = [" "; " "; " "] /\
  indices_of repeated_start (snd (analyse_text text)) = [1; 2; 3] /\
  map message (issues_of repeated_start (snd (analyse_text text))) =
    repeat "Several sentences start with ' '. Varying openings can improve academic style and flow." 3.
Proof. vm_compute. repeat split. Qed.

(** C3.  The contraction pattern is compiled without [re.IGNORECASE]:
    "Don't" is not matched, no contraction issue is reported for it and
    the rewriter leaves it as it is, while "don't" is matched, reported
    and expanded. *)
Theorem contraction_match_is_case_sensitive :
  pattern_finditer CONTRACTION_PATTERN "Don't delay the analysis." = [] /\
  issues_of contraction (snd (analyse_text "Don't delay the analysis.")) = [] /\
  clean_flat "Don't delay the analysis." = "Don't delay the analysis." /\
  pattern_finditer CONTRACTION_PATTERN "They don't delay." = [(5, "don't")] /\
  indices_of contraction (snd (analyse_text "They don't delay.")) = [1] /\
  clean_flat "They don't delay." = "They do not delay.".
Proof. vm_compute. repeat split. Qed.

(** *** The two loops of [analyse_text] *)

Lemma sentence_loop_issues sentences : forall idx issues starts,
  fst (sentence_loop idx sentences issues starts) =
  (issues ++ flat_map issues_at (enumerate idx sentences))%list.
Proof.
  induction sentences as [|s rest IH]; intros idx issues starts; simpl.
  - now rewrite app_nil_r.
  - rewrite IH, <- app_assoc. reflexivity.
Qed.

Lemma sentence_loop_starts sentences : forall idx issues starts,
  snd (sentence_loop idx sentences issues starts) =
  (starts ++ map (fun s => sentence_start (findall_token_group s)) sentences)%list.
Proof.
  induction sentences as [|s rest IH]; intros idx issues starts; simpl.
  - now rewrite app_nil_r.
  - rewrite IH, <- app_assoc. reflexivity.
Qed.

Lemma repeated_loop_app sentences all_starts starts : forall idx issues,
  repeated_loop sentences all_starts idx starts issues =
  (issues ++ repeated_loop sentences all_starts idx starts [])%list.
Proof.
  induction starts as [|st rest IH]; intros idx issues; simpl.
  - now rewrite app_nil_r.
  - destruct (truthy st && (2 <? counter all_starts st)%nat).
    + rewrite IH. rewrite (IH _ (_ :: nil)).
      now rewrite <- app_assoc.
    + apply IH.
Qed.

Lemma repeated_loop_types sentences all_starts starts : forall idx,
  Forall (fun i => type i = repeated_start)
         (repeated_loop sentences all_starts idx starts []).
Proof.
  induction starts as [|st rest IH]; intros idx; simpl.
  - constructor.
  - destruct (truthy st && (2 <? counter all_starts st)%nat).
    + rewrite repeated_loop_app. simpl. constructor; [reflexivity | apply IH].
    + apply IH.
Qed.

Lemma analyse_text_unfold text :
  analyse_text text =
  (split_sentences text,
   (flat_map issues_at (enumerate 1 (split_sentences text)) ++
    repeated_loop (split_sentences text) (recorded_starts text) 1
      (recorded_starts text) [])%list).
Proof.
  unfold analyse_text, recorded_starts.
  pose proof (sentence_loop_issues (split_sentences text) 1 [] []) as Hi.
  destruct (sentence_loop 1 (split_sentences text) [] []) as [issues starts].
  simpl in *. subst issues. now rewrite repeated_loop_app.
Qed.

(** *** Text without a terminal mark *)

Lemma space_after_terminal_cons c s :
  is_terminal c = false ->
  space_after_terminal (String c s) = String c (space_after_terminal s).
Proof.
  intros H. destruct s as [|d s]; simpl; rewrite ?H; reflexivity.
Qed.

Lemma space_after_terminal_plain s :
  has_terminal s = false -> space_after_terminal s = s.
Proof.
  induction s as [|c s IH]; [reflexivity|].
  intros H. simpl in H. apply orb_false_elim in H as [Hc Hs].
  rewrite space_after_terminal_cons by assumption. now rewrite IH.
Qed.

Lemma split_terminal_plain s :
  has_terminal s = false -> split_terminal s = [s].
Proof.
  induction s as [|c s IH]; [reflexivity|].
  intros H. simpl in H. apply orb_false_elim in H as [Hc Hs].
  simpl. rewrite Hc, IH by assumption. reflexivity.
Qed.

(** C9.  A text that is non-empty after trimming and contains none of
    the marks '.', '!' and '?' is split into exactly one sentence, the
    trimmed text, and the analysis returns that sentence together with
    the issues of the ordinary per-sentence checks on it. *)
Theorem unterminated_text_is_one_sentence (text : string) :
  truthy (strip text) = true ->
  has_terminal text = false ->
  split_sentences text = [strip text] /\
  analyse_text text =
    ([strip text],
     sentence_issues 1 (strip text) (findall_token_group (strip text))).
Proof.
  intros Hne Hno.
  assert (Hs : split_sentences text = [strip text]).
  { unfold split_sentences.
    rewrite space_after_terminal_plain, split_terminal_plain by assumption.
    simpl. now rewrite Hne. }
  split; [exact Hs|].
  rewrite analyse_text_unfold. unfold recorded_starts. rewrite Hs.
  simpl. unfold issues_at. simpl. rewrite app_nil_r.
  unfold counter. simpl.
  destruct (string_dec _ _) as [_|Hd]; [|now elim Hd].
  rewrite andb_false_r. now rewrite app_nil_r.
Qed.

Lemma unterminated_text_is_one_sentence_witness :
  split_sentences "  a plain line that never ends " =
    ["a plain line that never ends"] /\
  length (snd (analyse_text "  a plain line that never ends ")) = 1.
Proof.
  destruct (unterminated_text_is_one_sentence
              "  a plain line that never ends "
              ltac:(reflexivity) ltac:(reflexivity)) as [Hs Ha].
  split.
  - exact Hs.
  - rewrite Ha. reflexivity.
Defined.

(** *** The humaniser *)

Lemma truthy_app_l a b : truthy a = true -> truthy (a ++ b) = true.
Proof. destruct a; [discriminate | reflexivity]. Qed.

Lemma sub_from_truthy ic alts repl prev s :
  (forall m, truthy (repl m) = true) ->
  truthy s = true ->
  truthy (sub_from ic alts repl prev 0 s) = true.
Proof.
  intros Hrepl Hs. destruct s as [|c s]; [discriminate|].
  simpl. destruct (match_here ic alts prev (String c s)) as [[m r]|].
  - apply truthy_app_l, Hrepl.
  - reflexivity.
Qed.

Lemma rephrase_truthy s entry :
  truthy (snd entry) = true -> truthy s = true ->
  truthy (Humaniser.rephrase s entry) = true.
Proof.
  intros He Hs. unfold Humaniser.rephrase, sub.
  apply sub_from_truthy; auto.
Qed.

Lemma apply_light_rephrasings_truthy s :
  truthy s = true -> truthy (Humaniser.apply_light_rephrasings s) = true.
Proof.
  intros Hs. unfold Humaniser.apply_light_rephrasings.
  assert (Hall : Forall (fun e => truthy (snd e) = true)
                        Humaniser.LIGHT_REPHRASINGS)
    by (repeat constructor).
  revert s Hs.
  induction Hall as [|e l He _ IH]; intros s Hs; simpl; [assumption|].
  apply IH, rephrase_truthy; assumption.
Qed.

Lemma join_sentences_truthy parts :
  Forall (fun s => truthy s = true) (Humaniser.join_sentences parts).
Proof.
  induction parts as [parts IH] using (induction_ltof1 _ (@List.length _)).
  unfold ltof in IH.
  destruct parts as [|a [|b rest]]; simpl; try constructor.
  apply Forall_app. split.
  - destruct (truthy (strip (a ++ b))) eqn:E; repeat constructor; assumption.
  - apply IH. simpl. lia.
Qed.

Lemma humaniser_split_truthy text :
  Forall (fun s => truthy s = true) (Humaniser.split_sentences text).
Proof.
  unfold Humaniser.split_sentences.
  set (parts := split_terminal (space_after_terminal text)).
  destruct (Nat.odd (List.length parts)); simpl.
  - destruct (truthy (strip (last parts ""))) eqn:E.
    + apply Forall_app. split; [apply join_sentences_truthy|].
      repeat constructor; assumption.
    + apply join_sentences_truthy.
  - apply join_sentences_truthy.
Qed.

Section HumaniserFacts.

Variable G : Type.
Variable random : G -> Q * G.
Variable randbelow : nat -> G -> nat * G.
Variable fill : string -> Z -> string.

(** The first sentence: no draw is made and nothing is prepended. *)
Lemma academic_tone_first sentence total g :
  Humaniser.academic_tone G random randbelow sentence 0 total g =
  (Humaniser.Returned
     (if truthy (Humaniser.apply_light_rephrasings sentence)
      then Humaniser.apply_light_rephrasings sentence else sentence), g).
Proof. reflexivity. Qed.

Section Stubbed.

(** The random source never returns a value below the threshold. *)
Hypothesis never_below : forall g, (Humaniser.THRESHOLD <= fst (random g))%Q.

Lemma academic_tone_stubbed sentence idx total g :
  truthy sentence = true ->
  exists g',
    Humaniser.academic_tone G random randbelow sentence idx total g =
    (Humaniser.Returned (Humaniser.apply_light_rephrasings sentence), g').
Proof.
  intros Hs.
  pose proof (apply_light_rephrasings_truthy sentence Hs) as Hr.
  unfold Humaniser.academic_tone, Humaniser.bind.
  destruct ((0 <? idx)%nat && (idx <? total)%nat).
  - unfold Humaniser.random_random.
    pose proof (never_below g) as Hg.
    destruct (random g) as [r g'] eqn:Er. simpl in Hg.
    unfold Humaniser.Qltb.
    apply Qle_bool_iff in Hg. rewrite Hg. simpl.
    unfold Humaniser.ret. rewrite Hr. now exists g'.
  - simpl. unfold Humaniser.ret. rewrite Hr. now exists g.
Qed.

Lemma tone_loop_stubbed total sentences : forall idx new g,
  Forall (fun s => truthy s = true) sentences ->
  exists g',
    Humaniser.tone_loop G random randbelow total idx sentences new g =
    (Humaniser.Returned
       (new ++ map Humaniser.apply_light_rephrasings sentences)%list, g').
Proof.
  induction sentences as [|s rest IH]; intros idx new g Hall.
  - exists g. simpl. now rewrite app_nil_r.
  - inversion Hall as [|? ? Hs Hrest]; subst.
    destruct (academic_tone_stubbed s idx total g Hs) as [g1 H1].
    destruct (IH (S idx) (new ++ [Humaniser.apply_light_rephrasings s])%list
                 g1 Hrest) as [g2 H2].
    exists g2. simpl. unfold Humaniser.bind at 1.
    rewrite H1, H2. now rewrite <- app_assoc.
Qed.

Lemma humanise_stubbed text wrap g :
  fst (Humaniser.humanise_uk_academic G random randbelow fill text wrap g) =
  Humaniser.Returned
    (let flat := strip (collapse_spaces text) in
     if truthy flat
     then fill (join " " (map Humaniser.apply_light_rephrasings
                              (Humaniser.split_sentences flat))) wrap
     else "").
Proof.
  unfold Humaniser.humanise_uk_academic. cbv zeta.
  destruct (truthy (strip (collapse_spaces text))) eqn:E; simpl; [|reflexivity].
  set (sentences := Humaniser.split_sentences (strip (collapse_spaces text))).
  destruct (tone_loop_stubbed (List.length sentences) sentences 0 [] g
              (humaniser_split_truthy _)) as [g' H].
  unfold Humaniser.bind. rewrite H. reflexivity.
Qed.

End Stubbed.

End HumaniserFacts.

(** *** Adjacent terminal marks *)

Lemma is_terminal_cases c :
  is_terminal c = true -> c = "."%char \/ c = "!"%char \/ c = "?"%char.
Proof.
  unfold is_terminal. rewrite !orb_true_iff, !Ascii.eqb_eq. tauto.
Qed.

Lemma terminal_not_letter c : is_terminal c = true -> is_ascii_letter c = false.
Proof. intros H. destruct (is_terminal_cases c H) as [->|[->| ->]]; reflexivity. Qed.

Lemma terminal_not_word c : is_terminal c = true -> is_word c = false.
Proof. intros H. destruct (is_terminal_cases c H) as [->|[->| ->]]; reflexivity. Qed.

Lemma terminal_not_space c : is_terminal c = true -> is_space c = false.
Proof. intros H. destruct (is_terminal_cases c H) as [->|[->| ->]]; reflexivity. Qed.

Lemma space_after_terminal_head c s :
  exists r, space_after_terminal (String c s) = String c r.
Proof.
  destruct s as [|d s]; simpl; [now eexists|].
  destruct (is_terminal c && is_ascii_letter d); now eexists.
Qed.

Lemma space_after_terminal_step c d s :
  space_after_terminal (String c (String d s)) =
  if is_terminal c && is_ascii_letter d
  then String c (String " " (String d (space_after_terminal s)))
  else String c (space_after_terminal (String d s)).
Proof. reflexivity. Qed.

Lemma space_after_terminal_adjacent m1 m2 post :
  is_terminal m1 = true -> is_terminal m2 = true ->
  forall n pre, String.length pre <= n ->
  exists pre' post',
    space_after_terminal (pre ++ String m1 (String m2 post)) =
    pre' ++ String m1 (String m2 post').
Proof.
  intros H1 H2.
  assert (Hbase : exists post',
            space_after_terminal (String m1 (String m2 post)) =
            String m1 (String m2 post')).
  { rewrite space_after_terminal_step.
    rewrite (terminal_not_letter m2 H2), andb_false_r.
    destruct (space_after_terminal_head m2 post) as [r Hr].
    exists r. now rewrite Hr. }
  induction n as [|n IH]; intros pre Hlen.
  - destruct pre; [|simpl in Hlen; lia].
    destruct Hbase as [post' Hb]. now exists "", post'.
  - destruct pre as [|c [|d pre2]].
    + destruct Hbase as [post' Hb]. now exists "", post'.
    + destruct Hbase as [post' Hb]. exists (String c ""), post'.
      change (String c "" ++ String m1 (String m2 post))
        with (String c (String m1 (String m2 post))).
      rewrite space_after_terminal_step.
      rewrite (terminal_not_letter m1 H1), andb_false_r.
      rewrite Hb. reflexivity.
    + change (String c (String d pre2) ++ String m1 (String m2 post))
        with (String c (String d (pre2 ++ String m1 (String m2 post)))).
      rewrite space_after_terminal_step.
      destruct (is_terminal c && is_ascii_letter d).
      * destruct (IH pre2) as (pre' & post' & E); [simpl in Hlen; lia|].
        exists (String c (String " " (String d pre'))), post'.
        rewrite E. reflexivity.
      * destruct (IH (String d pre2)) as (pre' & post' & E);
          [simpl in Hlen |- *; lia|].
        exists (String c pre'), post'.
        change (String d pre2 ++ String m1 (String m2 post))
          with (String d (pre2 ++ String m1 (String m2 post))) in E.
        rewrite E. reflexivity.
Qed.

Lemma split_terminal_through m rest :
  is_terminal m = true ->
  forall pre, exists a front,
    split_terminal (pre ++ String m rest) =
      (a :: front ++ split_terminal rest)%list /\
    Nat.odd (List.length front) = true.
Proof.
  intros Hm. induction pre as [|c pre IH].
  - exists "", [String m ""]. simpl. rewrite Hm. now split.
  - destruct IH as (a & front & E & Hodd).
    change (String c pre ++ String m rest)
      with (String c (pre ++ String m rest)).
    cbn [split_terminal]. destruct (is_terminal c).
    + exists "", (String c "" :: a :: front)%list. rewrite E. split; [reflexivity|].
      change (List.length (String c "" :: a :: front))
        with (S (S (List.length front))).
      now rewrite Nat.odd_succ_succ.
    + rewrite E. exists (String c a), front. now split.
Qed.

Lemma join_sentences_app : forall n front rest,
  List.length front = 2 * n ->
  join_sentences (front ++ rest) =
  (join_sentences front ++ join_sentences rest)%list.
Proof.
  induction n as [|n IH]; intros front rest Hlen.
  - destruct front; [reflexivity | simpl in Hlen; lia].
  - destruct front as [|a [|b front]]; simpl in Hlen; try lia.
    simpl. rewrite IH by lia. now rewrite app_assoc.
Qed.

Lemma split_sentences_incl text s :
  In s (join_sentences (split_terminal (space_after_terminal text))) ->
  In s (split_sentences text).
Proof.
  intros H. unfold split_sentences.
  destruct (_ && _); [apply in_or_app; now left | assumption].
Qed.

Lemma enumerate_In s : forall l k,
  In s l ->
  exists idx, k <= idx < k + List.length l /\
              nth_error l (idx - k) = Some s /\
              In (idx, s) (enumerate k l).
Proof.
  induction l as [|x l IH]; intros k H; [contradiction|].
  destruct H as [->|H].
  - exists k. simpl. rewrite Nat.sub_diag. repeat split; try lia. now left.
  - destruct (IH (S k) H) as (idx & Hr & Hn & Hi).
    exists idx. simpl. repeat split; try lia.
    + replace (idx - k) with (S (idx - S k)) by lia. exact Hn.
    + now right.
Qed.

Lemma terminal_alone_issues m idx :
  is_terminal m = true ->
  findall_token_group (String m "") = [] /\
  In (short_issue idx 0 (String m "")) (issues_at (idx, String m "")).
Proof.
  intros Hm.
  assert (E : findall_token_group (String m "") = []).
  { unfold findall_token_group. simpl. unfold match_token. simpl.
    now rewrite (terminal_not_word m Hm). }
  split; [exact E|].
  unfold issues_at. simpl. rewrite E. unfold sentence_issues. simpl.
  now left.
Qed.

(** C10.  When two terminal marks are adjacent in the input, the second
    mark alone is one of the sentences the splitter returns; "Wait.. go."
    is split into "Wait.", "." and "go.".  A sentence that is a bare mark
    has no word token, and the analysis reports it as a short sentence
    of 0 words. *)
Theorem adjacent_terminal_marks (pre post : string) (m1 m2 : ascii) :
  is_terminal m1 = true ->
  is_terminal m2 = true ->
  let text := pre ++ String m1 (String m2 post) in
  split_sentences "Wait.. go." = ["Wait."; "."; "go."] /\
  In (String m2 "") (split_sentences text) /\
  findall_token_group (String m2 "") = [] /\
  exists idx,
    nth_error (fst (analyse_text text)) (idx - 1) = Some (String m2 "") /\
    In (short_issue idx 0 (String m2 "")) (snd (analyse_text text)).
Proof.
  intros H1 H2 text.
  assert (Hin : In (String m2 "") (split_sentences text)).
  { apply split_sentences_incl. unfold text.
    destruct (space_after_terminal_adjacent m1 m2 post H1 H2
                (String.length pre) pre (le_n _)) as (pre' & post' & E).
    rewrite E.
    destruct (split_terminal_through m1 (String m2 post') H1 pre')
      as (a & front & Es & Hodd).
    rewrite Es.
    apply Nat.odd_spec in Hodd as [k Hk].
    change (a :: front ++ split_terminal (String m2 post'))%list
      with ((a :: front) ++ split_terminal (String m2 post'))%list.
    rewrite (join_sentences_app (S k)) by (simpl; lia).
    apply in_or_app. right.
    destruct (is_terminal_cases m2 H2) as [->|[->| ->]]; now left. }
  split; [reflexivity|]. split; [exact Hin|].
  split; [exact (proj1 (terminal_alone_issues m2 0 H2))|].
  destruct (enumerate_In _ _ 1 Hin) as (idx & Hr & Hn & Hi).
  exists idx. rewrite analyse_text_unfold. simpl. split; [exact Hn|].
  apply in_or_app. left. apply in_flat_map.
  exists (idx, String m2 ""). split; [exact Hi|].
  exact (proj2 (terminal_alone_issues m2 idx H2)).
Qed.

Lemma adjacent_terminal_marks_witness :
  In "." (split_sentences "Wait.. go.") /\
  exists idx, In (short_issue idx 0 ".") (snd (analyse_text "Wait.. go.")).
Proof.
  destruct (adjacent_terminal_marks "Wait" " go." "."%char "."%char
              ltac:(reflexivity) ltac:(reflexivity))
    as (_ & Hin & _ & idx & _ & Hi).
  split; [exact Hin | now exists idx].
Defined.

(** *** Splitting again what the splitter returned *)

Lemma string_app_assoc (a b c : string) : (a ++ b) ++ c = a ++ (b ++ c).
Proof. induction a as [|x a IH]; simpl; [reflexivity | now rewrite IH]. Qed.

Lemma string_app_nil_r (a : string) : a ++ "" = a.
Proof. induction a as [|x a IH]; simpl; [reflexivity | now rewrite IH]. Qed.

Lemma split_sentences_assemble text :
  split_sentences text = assemble (split_terminal (space_after_terminal text)).
Proof.
  unfold split_sentences, assemble.
  destruct (_ && _); [reflexivity | now rewrite app_nil_r].
Qed.

Lemma lstrip_idem s : lstrip (lstrip s) = lstrip s.
Proof.
  induction s as [|c s IH]; [reflexivity|]. simpl.
  destruct (is_space c) eqn:E; [exact IH|]. simpl. now rewrite E.
Qed.

Lemma rstrip_idem s : rstrip (rstrip s) = rstrip s.
Proof.
  induction s as [|c s IH]; [reflexivity|]. simpl.
  destruct (rstrip s) as [|d r] eqn:E.
  - destruct (is_space c) eqn:Ec; [reflexivity|]. simpl. now rewrite Ec.
  - simpl in *. now rewrite IH.
Qed.

Lemma rstrip_head c s :
  is_space c = false -> exists r, rstrip (String c s) = String c r.
Proof.
  intros Hc. simpl. destruct (rstrip s); [rewrite Hc|]; now eexists.
Qed.

Lemma lstrip_fixed s :
  lstrip s = s -> s = "" \/ exists c r, s = String c r /\ is_space c = false.
Proof.
  destruct s as [|c r]; [now left|]. intros H. right. exists c, r.
  split; [reflexivity|]. simpl in H.
  destruct (is_space c) eqn:E; [|reflexivity].
  exfalso. clear E.
  assert (Hlen : forall t, String.length (lstrip t) <= String.length t).
  { induction t as [|x t IHt]; simpl; [lia|].
    destruct (is_space x); simpl; lia. }
  pose proof (Hlen r) as Hr. rewrite H in Hr. simpl in Hr. lia.
Qed.

Lemma strip_idem s : strip (strip s) = strip s.
Proof.
  unfold strip.
  destruct (lstrip_fixed (lstrip s) (lstrip_idem s)) as [E|(c & r & E & Hc)].
  - rewrite E. reflexivity.
  - rewrite E. destruct (rstrip_head c r Hc) as [r' Hr]. rewrite Hr.
    simpl lstrip. rewrite Hc. rewrite <- Hr. apply rstrip_idem.
Qed.

Lemma lstrip_all_space sp s : all_space sp = true -> lstrip (sp ++ s) = lstrip s.
Proof.
  induction sp as [|c sp IH]; [reflexivity|]. simpl.
  intros H. apply andb_prop in H as [Hc Hsp]. rewrite Hc. now apply IH.
Qed.

Lemma strip_all_space sp s : all_space sp = true -> strip (sp ++ s) = strip s.
Proof. intros H. unfold strip. now rewrite lstrip_all_space. Qed.

Lemma strip_only_space sp : all_space sp = true -> strip sp = "".
Proof.
  intros H. rewrite <- (string_app_nil_r sp).
  now rewrite strip_all_space.
Qed.

Lemma all_space_no_terminal sp : all_space sp = true -> has_terminal sp = false.
Proof.
  induction sp as [|c sp IH]; [reflexivity|]. simpl.
  intros H. apply andb_prop in H as [Hc Hsp]. rewrite IH by assumption.
  destruct (is_terminal c) eqn:E; [|reflexivity].
  apply terminal_not_space in E. congruence.
Qed.

Lemma has_terminal_app a b :
  has_terminal (a ++ b) = has_terminal a || has_terminal b.
Proof.
  induction a as [|c a IH]; [reflexivity|]. simpl.
  now rewrite IH, orb_assoc.
Qed.

Lemma lstrip_no_terminal s : has_terminal s = false -> has_terminal (lstrip s) = false.
Proof.
  induction s as [|c s IH]; [reflexivity|]. simpl. intros H.
  apply orb_false_elim in H as [Hc Hs].
  destruct (is_space c); [now apply IH|]. simpl. now rewrite Hc, Hs.
Qed.

Lemma rstrip_no_terminal s : has_terminal s = false -> has_terminal (rstrip s) = false.
Proof.
  induction s as [|c s IH]; [reflexivity|]. simpl. intros H.
  apply orb_false_elim in H as [Hc Hs]. specialize (IH Hs).
  destruct (rstrip s) as [|d r].
  - destruct (is_space c); simpl; [reflexivity | now rewrite Hc].
  - simpl in *. now rewrite Hc, IH.
Qed.

Lemma strip_no_terminal s : has_terminal s = false -> has_terminal (strip s) = false.
Proof. intros H. apply rstrip_no_terminal, lstrip_no_terminal, H. Qed.

Lemma rstrip_marked s m :
  is_space m = false -> rstrip (s ++ String m "") = s ++ String m "".
Proof.
  intros Hm. induction s as [|c s IH]; simpl; [now rewrite Hm|].
  rewrite IH. destruct s; reflexivity.
Qed.

Lemma lstrip_marked s m :
  is_space m = false -> lstrip (s ++ String m "") = lstrip s ++ String m "".
Proof.
  intros Hm. induction s as [|c s IH]; simpl; [now rewrite Hm|].
  destruct (is_space c); [exact IH | reflexivity].
Qed.

Lemma strip_marked s m :
  is_space m = false -> strip (s ++ String m "") = lstrip s ++ String m "".
Proof.
  intros Hm. unfold strip. rewrite lstrip_marked by assumption.
  now apply rstrip_marked.
Qed.

Lemma truthy_marked s m : truthy (s ++ String m "") = true.
Proof. destruct s; reflexivity. Qed.

Lemma marked_is_closed body m :
  has_terminal body = false -> is_terminal m = true ->
  closed_sentence (strip (body ++ String m "")).
Proof.
  intros Hb Hm. exists (lstrip body), m.
  pose proof (terminal_not_space m Hm) as Hs.
  repeat split.
  - now apply strip_marked.
  - now apply lstrip_no_terminal.
  - assumption.
  - apply strip_idem.
Qed.

Lemma split_terminal_nonempty s : split_terminal s <> [].
Proof.
  destruct s as [|c s]; simpl; [discriminate|].
  destruct (is_terminal c); [discriminate|].
  destruct (split_terminal s); discriminate.
Qed.

Lemma split_terminal_body body m rest :
  has_terminal body = false -> is_terminal m = true ->
  split_terminal (body ++ String m rest) =
  body :: String m "" :: split_terminal rest.
Proof.
  intros Hb Hm. induction body as [|c body IH]; simpl.
  - now rewrite Hm.
  - simpl in Hb. apply orb_false_elim in Hb as [Hc Hb].
    rewrite Hc, IH by assumption. reflexivity.
Qed.

Lemma first_terminal s :
  has_terminal s = true ->
  exists body m rest,
    s = body ++ String m rest /\ has_terminal body = false /\
    is_terminal m = true.
Proof.
  induction s as [|c s IH]; [discriminate|]. simpl. intros H.
  destruct (is_terminal c) eqn:Ec.
  - now exists "", c, s.
  - destruct (IH H) as (body & m & rest & -> & Hb & Hm).
    exists (String c body), m, rest. simpl. now rewrite Ec, Hb.
Qed.

Lemma assemble_pair a b parts :
  parts <> [] ->
  assemble (a :: b :: parts) =
  ((if truthy (strip (a ++ b)) then [strip (a ++ b)] else []) ++
   assemble parts)%list.
Proof.
  intros Hne. unfold assemble.
  change (List.length (a :: b :: parts)) with (S (S (List.length parts))).
  rewrite Nat.odd_succ_succ.
  replace (last (a :: b :: parts) "") with (last parts "")
    by (destruct parts as [|x [|y l]]; [contradiction | reflexivity..]).
  simpl join_sentences. now rewrite <- app_assoc.
Qed.

Lemma assemble_plain s :
  assemble [s] = if truthy (strip s) then [strip s] else [].
Proof. reflexivity. Qed.

Lemma length_app_marked body m rest :
  String.length rest < String.length (body ++ String m rest).
Proof. induction body as [|c body IH]; simpl; lia. Qed.

(** Whatever the text, the splitter returns closed sentences followed
    by at most one open fragment. *)
Lemma split_terminal_sentence_list : forall n s,
  String.length s <= n -> sentence_list (assemble (split_terminal s)).
Proof.
  induction n as [|n IH]; intros s Hlen.
  - destruct s; [|simpl in Hlen; lia]. constructor.
  - destruct (has_terminal s) eqn:Ht.
    + destruct (first_terminal s Ht) as (body & m & rest & -> & Hb & Hm).
      rewrite split_terminal_body by assumption.
      rewrite assemble_pair by apply split_terminal_nonempty.
      pose proof (marked_is_closed body m Hb Hm) as Hc.
      pose proof (terminal_not_space m Hm) as Hs.
      rewrite (strip_marked body m Hs), truthy_marked.
      rewrite (strip_marked body m Hs) in Hc.
      apply sentences_closed; [exact Hc|].
      apply IH. pose proof (length_app_marked body m rest). lia.
    + rewrite split_terminal_plain, assemble_plain by assumption.
      destruct (truthy (strip s)) eqn:E; [|constructor].
      apply sentences_open. repeat split.
      * now apply strip_no_terminal.
      * apply strip_idem.
      * assumption.
Qed.

Lemma split_sentences_sentence_list text : sentence_list (split_sentences text).
Proof.
  rewrite split_sentences_assemble.
  now apply (split_terminal_sentence_list _ _ (le_n _)).
Qed.

Lemma join_cons s l sep :
  join sep (s :: l) = s ++ (match l with [] => "" | _ => sep ++ join sep l end).
Proof.
  unfold join. destruct l; simpl; [now rewrite string_app_nil_r | reflexivity].
Qed.

Lemma space_after_terminal_app_plain body s :
  has_terminal body = false ->
  space_after_terminal (body ++ s) = body ++ space_after_terminal s.
Proof.
  intros Hb. induction body as [|c body IH]; [reflexivity|].
  simpl in Hb. apply orb_false_elim in Hb as [Hc Hb].
  change (String c body ++ s) with (String c (body ++ s)).
  rewrite space_after_terminal_cons by assumption. now rewrite IH.
Qed.

(** The joined sentences have no mark directly before a letter, so the
    first step of the splitter leaves them as they are. *)
Lemma space_after_terminal_join l :
  sentence_list l ->
  forall sp, all_space sp = true ->
  space_after_terminal (sp ++ join " " l) = sp ++ join " " l.
Proof.
  induction 1 as [|s [Hs _]|s l (body & m & -> & Hb & Hm & _) Hl IH];
    intros sp Hsp.
  - apply space_after_terminal_plain. rewrite has_terminal_app.
    now rewrite (all_space_no_terminal sp Hsp).
  - apply space_after_terminal_plain. rewrite has_terminal_app.
    now rewrite (all_space_no_terminal sp Hsp).
  - rewrite join_cons, string_app_assoc.
    rewrite !space_after_terminal_app_plain
      by (assumption || now apply all_space_no_terminal).
    do 2 f_equal. destruct l as [|y l]; [reflexivity|].
    change (String m "" ++ " " ++ join " " (y :: l))
      with (String m (String " " (join " " (y :: l)))).
    rewrite space_after_terminal_step.
    change (is_ascii_letter " ") with false. rewrite andb_false_r.
    f_equal. apply (IH " "). reflexivity.
Qed.

Lemma assemble_join l :
  sentence_list l ->
  forall sp, all_space sp = true ->
  assemble (split_terminal (sp ++ join " " l)) = l.
Proof.
  induction 1 as [|s (Hs & Hstrip & Hne)|s l (body & m & E & Hb & Hm & Hstrip) Hl IH];
    intros sp Hsp.
  - simpl. rewrite string_app_nil_r.
    rewrite split_terminal_plain by now apply all_space_no_terminal.
    rewrite assemble_plain. now rewrite (strip_only_space sp Hsp).
  - simpl. rewrite split_terminal_plain
      by (rewrite has_terminal_app, Hs; now rewrite all_space_no_terminal).
    rewrite assemble_plain, strip_all_space by assumption.
    now rewrite Hstrip, Hne.
  - rewrite join_cons. rewrite E at 1.
    rewrite string_app_assoc.
    change (String m "" ++ match l with [] => "" | _ :: _ => " " ++ join " " l end)
      with (String m (match l with [] => "" | _ :: _ => " " ++ join " " l end)).
    rewrite <- string_app_assoc.
    rewrite split_terminal_body;
      [| rewrite has_terminal_app, Hb; now rewrite all_space_no_terminal
       | assumption].
    rewrite assemble_pair by apply split_terminal_nonempty.
    rewrite string_app_assoc, <- E, strip_all_space, Hstrip by assumption.
    replace (truthy s) with true by (rewrite E; symmetry; apply truthy_marked).
    simpl. f_equal.
    destruct l as [|y l].
    + inversion Hl. reflexivity.
    + apply (IH " "). reflexivity.
Qed.

(** C8.  Joining the sentences the splitter returned with single spaces
    and splitting the result again gives the same sentences, hence the
    same number of sentences. *)
Theorem split_sentences_idempotent (text : string) :
  split_sentences (join " " (split_sentences text)) = split_sentences text /\
  List.length (split_sentences (join " " (split_sentences text))) =
  List.length (split_sentences text).
Proof.
  assert (E : split_sentences (join " " (split_sentences text)) =
              split_sentences text).
  { pose proof (split_sentences_sentence_list text) as Hl.
    pose proof (space_after_terminal_join _ Hl "" eq_refl) as H1.
    pose proof (assemble_join _ Hl "" eq_refl) as H2.
    cbn [append] in H1, H2.
    rewrite split_sentences_assemble at 1. now rewrite H1. }
  split; [exact E | now rewrite E].
Qed.

(** *** Facts about strings *)

Lemma string_length_app (a b : string) :
  String.length (a ++ b) = String.length a + String.length b.
Proof. induction a as [|x a IH]; simpl; [reflexivity | now rewrite IH]. Qed.

(** Two ways of cutting the same text: one cut is inside the other's
    left part. *)
Lemma string_app_eq_app (a b c d : string) :
  a ++ b = c ++ d ->
  (exists e, a = c ++ e /\ d = e ++ b) \/
  (exists x e, c = a ++ String x e /\ b = String x e ++ d).
Proof.
  revert c. induction a as [|x a IH]; intros c H; simpl in H.
  - destruct c as [|y c].
    + left. exists "". simpl in *. now split.
    + right. exists y, c. now split.
  - destruct c as [|y c]; simpl in H.
    + left. exists (String x a). now split.
    + injection H as -> H. destruct (IH c H) as [(e & -> & ->)|(z & e & -> & ->)].
      * left. now exists e.
      * right. now exists z, e.
Qed.

Lemma last_char_app prev a b :
  last_char prev (a ++ b) = last_char (last_char prev a) b.
Proof. revert prev. induction a as [|x a IH]; intros prev; simpl; [reflexivity | apply IH]. Qed.

Lemma last_char_nonempty p q m :
  truthy m = true -> last_char p m = last_char q m.
Proof. destruct m; [discriminate | reflexivity]. Qed.

Lemma all_word_app a b : all_word (a ++ b) = all_word a && all_word b.
Proof.
  induction a as [|x a IH]; [reflexivity|]. simpl.
  now rewrite IH, andb_assoc.
Qed.

Lemma all_word_last prev m :
  all_word m = true -> truthy m = true -> opt_word (last_char prev m) = true.
Proof.
  revert prev. induction m as [|c m IH]; intros prev Hw Hne; [discriminate|].
  simpl in Hw. apply andb_prop in Hw as [Hc Hm].
  destruct m as [|d m]; [exact Hc|]. exact (IH (Some c) Hm eq_refl).
Qed.

Lemma all_word_head m :
  all_word m = true -> truthy m = true -> opt_word (head m) = true.
Proof.
  destruct m as [|c m]; [discriminate|]. simpl.
  intros H _. now apply andb_prop in H as [Hc _].
Qed.

Lemma head_app a b : truthy a = true -> head (a ++ b) = head a.
Proof. destruct a; [discriminate | reflexivity]. Qed.

Lemma span_word_app w r :
  all_word w = true -> opt_word (head r) = false ->
  span_word (w ++ r) = (w, r).
Proof.
  intros Hw Hr. induction w as [|c w IH]; simpl.
  - destruct r as [|d r]; [reflexivity|]. simpl in Hr |- *. now rewrite Hr.
  - simpl in Hw. apply andb_prop in Hw as [Hc Hw]. now rewrite Hc, IH.
Qed.

Lemma word_run_unique a x b y :
  all_word a = true -> all_word b = true ->
  opt_word (head x) = false -> opt_word (head y) = false ->
  a ++ x = b ++ y -> a = b /\ x = y.
Proof.
  intros Ha Hb Hx Hy E.
  pose proof (span_word_app a x Ha Hx) as H1.
  pose proof (span_word_app b y Hb Hy) as H2.
  rewrite E, H2 in H1. now inversion H1.
Qed.

(** *** The pattern matcher, case-sensitive *)

Section Matcher.

Variable alts : list string.
Variable repl : string -> string.
Hypothesis alts_nonempty : Forall (fun k => truthy k = true) alts.

Lemma match_literal_sound k : forall s m r,
  match_literal false k s = Some (m, r) -> m = k /\ s = k ++ r.
Proof.
  induction k as [|p k IH]; intros s m r H; simpl in H.
  - now inversion H.
  - destruct s as [|c s]; [discriminate|].
    unfold char_matches in H.
    destruct (Ascii.eqb_spec p c) as [->|]; [|discriminate].
    destruct (match_literal false k s) as [[m' r']|] eqn:E; [|discriminate].
    inversion H; subst. destruct (IH _ _ _ E) as [-> ->]. now split.
Qed.

Lemma match_literal_complete k r :
  match_literal false k (k ++ r) = Some (k, r).
Proof.
  induction k as [|p k IH]; simpl; [reflexivity|].
  unfold char_matches. now rewrite Ascii.eqb_refl, IH.
Qed.

Lemma match_alt_sound l prev s m r :
  match_alt false l prev s = Some (m, r) ->
  In m l /\ s = m ++ r /\ word_boundary (last_char prev m) (head r) = true.
Proof.
  induction l as [|k l IH]; simpl; [discriminate|]. intros H.
  destruct (match_literal false k s) as [[m' r']|] eqn:E.
  - destruct (word_boundary (last_char prev m') (head r')) eqn:Eb.
    + inversion H; subst. destruct (match_literal_sound _ _ _ _ E) as [-> ->].
      repeat split; auto.
    + destruct (IH H) as (? & ? & ?). auto.
  - destruct (IH H) as (? & ? & ?). auto.
Qed.

Lemma match_alt_complete l prev k r :
  In k l -> word_boundary (last_char prev k) (head r) = true ->
  match_alt false l prev (k ++ r) <> None.
Proof.
  induction l as [|a l IH]; simpl; [contradiction|]. intros [->|Hin] Hb.
  - now rewrite match_literal_complete, Hb.
  - destruct (match_literal false a (k ++ r)) as [[m' r']|]; [|auto].
    destruct (word_boundary (last_char prev m') (head r')); [discriminate | auto].
Qed.

Lemma match_here_sound prev s m r :
  match_here false alts prev s = Some (m, r) ->
  In m alts /\ truthy m = true /\ s = m ++ r /\
  word_boundary prev (head m) = true /\
  word_boundary (last_char prev m) (head r) = true.
Proof.
  unfold match_here. destruct (word_boundary prev (head s)) eqn:Eb; [|discriminate].
  intros H. destruct (match_alt_sound _ _ _ _ _ H) as (Hin & -> & Hr).
  assert (Hne : truthy m = true)
    by (rewrite Forall_forall in alts_nonempty; auto).
  rewrite head_app in Eb by assumption. auto.
Qed.

Lemma match_here_complete prev k r :
  In k alts ->
  word_boundary prev (head k) = true ->
  word_boundary (last_char prev k) (head r) = true ->
  match_here false alts prev (k ++ r) <> None.
Proof.
  intros Hin Hb Ha. unfold match_here.
  assert (Hne : truthy k = true)
    by (rewrite Forall_forall in alts_nonempty; auto).
  rewrite head_app, Hb by assumption. now apply match_alt_complete.
Qed.

Lemma match_here_prev p q s :
  opt_word p = opt_word q ->
  match_here false alts p s = match_here false alts q s.
Proof.
  intros H. unfold match_here, word_boundary. rewrite H.
  destruct (xorb _ _); [|reflexivity].
  destruct s as [|c s].
  - clear H. induction alts as [|k l IH]; simpl; [reflexivity|].
    inversion alts_nonempty as [|? ? Hk Hl]; subst.
    destruct k; [discriminate|]. simpl. auto.
  - clear - alts_nonempty. set (s0 := String c s). clearbody s0.
    induction alts as [|k l IH]; simpl; [reflexivity|].
    inversion alts_nonempty as [|? ? Hk Hl]; subst.
    destruct (match_literal false k s0) as [[m r]|] eqn:E; [|auto].
    destruct (match_literal_sound _ _ _ _ E) as [-> _].
    rewrite (last_char_nonempty p q k Hk).
    destruct (word_boundary _ _); auto.
Qed.

(** After a match the scan passes the matched text and resumes at what
    follows it. *)
Lemma sub_from_skip m : forall prev r,
  sub_from false alts repl prev (String.length m) (m ++ r) =
  sub_from false alts repl (last_char prev m) 0 r.
Proof.
  induction m as [|c m IH]; intros prev r; [reflexivity|].
  simpl. apply IH.
Qed.

Lemma finditer_from_skip m : forall prev pos r,
  finditer_from false alts prev pos (String.length m) (m ++ r) =
  finditer_from false alts (last_char prev m) (pos + String.length m) 0 r.
Proof.
  induction m as [|c m IH]; intros prev pos r.
  - simpl. now rewrite Nat.add_0_r.
  - simpl. rewrite IH. now rewrite Nat.add_succ_r.
Qed.

Lemma sub_from_match prev s m r :
  match_here false alts prev s = Some (m, r) ->
  sub_from false alts repl prev 0 s =
  repl m ++ sub_from false alts repl (last_char prev m) 0 r.
Proof.
  intros H. destruct (match_here_sound _ _ _ _ H) as (_ & Hne & -> & _).
  destruct m as [|c m]; [discriminate|].
  change (String c m ++ r) with (String c (m ++ r)) in *.
  cbn [sub_from]. rewrite H. cbn [String.length pred].
  now rewrite sub_from_skip.
Qed.

Lemma sub_from_no_match prev c s :
  match_here false alts prev (String c s) = None ->
  sub_from false alts repl prev 0 (String c s) =
  String c (sub_from false alts repl (Some c) 0 s).
Proof. intros H. cbn [sub_from]. now rewrite H. Qed.

Lemma finditer_from_match prev pos s m r :
  match_here false alts prev s = Some (m, r) ->
  finditer_from false alts prev pos 0 s =
  (pos, m) ::
  finditer_from false alts (last_char prev m) (pos + String.length m) 0 r.
Proof.
  intros H. destruct (match_here_sound _ _ _ _ H) as (_ & Hne & -> & _).
  destruct m as [|c m]; [discriminate|].
  change (String c m ++ r) with (String c (m ++ r)) in *.
  cbn [finditer_from]. rewrite H. cbn [String.length pred].
  rewrite finditer_from_skip. now rewrite Nat.add_succ_r.
Qed.

Lemma finditer_from_no_match prev pos c s :
  match_here false alts prev (String c s) = None ->
  finditer_from false alts prev pos 0 (String c s) =
  finditer_from false alts (Some c) (S pos) 0 s.
Proof. intros H. cbn [finditer_from]. now rewrite H. Qed.

End Matcher.

(** *** The first-person pattern *)

Lemma forms_nonempty : Forall (fun k => truthy k = true) FIRST_PERSON_FORMS.
Proof. repeat constructor. Qed.

Lemma forms_word w :
  In w FIRST_PERSON_FORMS -> all_word w = true /\ truthy w = true.
Proof.
  simpl. intros H.
  repeat (destruct H as [<-|H]; [now split|]). contradiction.
Qed.

Lemma boundary_before_word prev m :
  all_word m = true -> truthy m = true ->
  word_boundary prev (head m) = negb (opt_word prev).
Proof.
  intros Hw Hne. unfold word_boundary.
  rewrite (all_word_head m Hw Hne). now destruct (opt_word prev).
Qed.

Lemma boundary_after_word prev m next :
  all_word m = true -> truthy m = true ->
  word_boundary (last_char prev m) next = negb (opt_word next).
Proof.
  intros Hw Hne. unfold word_boundary.
  now rewrite (all_word_last prev m Hw Hne).
Qed.

Lemma first_person_scan : forall n s prev pos,
  String.length s <= n ->
  forall p w,
    In (p, w) (finditer_from false FIRST_PERSON_FORMS prev pos 0 s) <->
    In w FIRST_PERSON_FORMS /\ whole_word_from prev pos s p w.
Proof.
  assert (Hempty : forall prev pos p w,
            In w FIRST_PERSON_FORMS -> ~ whole_word_from prev pos "" p w).
  { intros prev pos p w Hw (pre & post & E & _).
    destruct (forms_word w Hw) as [_ Hne].
    destruct pre; [destruct w|]; discriminate. }
  induction n as [|n IH]; intros s prev pos Hlen p w.
  { destruct s; [|simpl in Hlen; lia]. simpl.
    split; [contradiction | intros [Hw H]; exact (Hempty _ _ _ _ Hw H)]. }
  destruct s as [|c s].
  { simpl. split; [contradiction | intros [Hw H]; exact (Hempty _ _ _ _ Hw H)]. }
  destruct (match_here false FIRST_PERSON_FORMS prev (String c s))
    as [[m r]|] eqn:E.
  - rewrite (finditer_from_match _ forms_nonempty _ _ _ _ _ E).
    destruct (match_here_sound _ forms_nonempty _ _ _ _ E)
      as (Hm & Hne & Es & Hb & Ha).
    destruct (forms_word m Hm) as [Hmw _].
    rewrite boundary_before_word in Hb by assumption.
    rewrite boundary_after_word in Ha by assumption.
    apply negb_true_iff in Hb, Ha.
    assert (Hlr : String.length r <= n).
    { rewrite Es, string_length_app in Hlen.
      destruct m; [discriminate|]. simpl in Hlen. lia. }
    specialize (IH r (last_char prev m) (pos + String.length m) Hlr p w).
    split.
    + intros [H|H].
      * inversion H; subst p w. split; [assumption|].
        exists "", r. simpl. rewrite Nat.add_0_r. auto.
      * apply IH in H as (Hw & pre & post & Er & Ep & Hpre & Hpost).
        split; [assumption|]. exists (m ++ pre), post.
        rewrite string_app_assoc, <- Er, string_length_app, last_char_app.
        repeat split; auto. lia.
    + intros (Hw & pre & post & Epre & Ep & Hpre & Hpost).
      destruct (forms_word w Hw) as [Hww Hwne].
      rewrite Es in Epre. symmetry in Epre.
      destruct (string_app_eq_app _ _ _ _ Epre)
        as [(e & Ee & Er)|(x & e & Em & Ew)].
      * right. apply IH. split; [assumption|]. exists e, post.
        subst pre. rewrite last_char_app in Hpre.
        rewrite string_length_app in Ep. repeat split; auto. lia.
      * destruct pre as [|y pre].
        -- left. simpl in Em, Ep. subst m.
           destruct (word_run_unique w post (String x e) r) as [-> _]; auto.
           now rewrite Ep, Nat.add_0_r.
        -- exfalso. rewrite Em, all_word_app in Hmw.
           apply andb_prop in Hmw as [Hy _].
           rewrite (all_word_last prev _ Hy eq_refl) in Hpre. discriminate.
  - rewrite (finditer_from_no_match _ _ _ _ _ E).
    assert (Hls : String.length s <= n) by (simpl in Hlen; lia).
    specialize (IH s (Some c) (S pos) Hls p w).
    split.
    + intros H. apply IH in H as (Hw & pre & post & Er & Ep & Hpre & Hpost).
      split; [assumption|]. exists (String c pre), post. simpl.
      rewrite <- Er. repeat split; auto. lia.
    + intros (Hw & pre & post & Epre & Ep & Hpre & Hpost).
      destruct (forms_word w Hw) as [Hww Hwne].
      destruct pre as [|y pre].
      * exfalso. simpl in Epre, Hpre.
        apply (match_here_complete _ forms_nonempty prev w post Hw).
        -- rewrite boundary_before_word by assumption. now rewrite Hpre.
        -- rewrite boundary_after_word by assumption. now rewrite Hpost.
        -- now rewrite <- Epre.
      * simpl in Epre. injection Epre as <- Es2.
        apply IH. split; [assumption|]. exists pre, post.
        simpl in Ep, Hpre. repeat split; auto. lia.
Qed.

Lemma first_person_sorted : forall n s prev pos,
  String.length s <= n ->
  StronglySorted lt
    (map fst (finditer_from false FIRST_PERSON_FORMS prev pos 0 s)).
Proof.
  induction n as [|n IH]; intros s prev pos Hlen.
  { destruct s; [|simpl in Hlen; lia]. constructor. }
  destruct s as [|c s]; [constructor|].
  destruct (match_here false FIRST_PERSON_FORMS prev (String c s))
    as [[m r]|] eqn:E.
  - rewrite (finditer_from_match _ forms_nonempty _ _ _ _ _ E).
    destruct (match_here_sound _ forms_nonempty _ _ _ _ E)
      as (Hm & Hne & Es & _).
    assert (Hlm : 0 < String.length m) by (destruct m; [discriminate | simpl; lia]).
    assert (Hlr : String.length r <= n).
    { rewrite Es, string_length_app in Hlen. simpl in Hlen. lia. }
    simpl. constructor; [now apply IH|].
    apply Forall_forall. intros q Hq.
    apply in_map_iff in Hq as ([p w] & <- & Hin). simpl.
    apply (first_person_scan _ _ _ _ Hlr) in Hin
      as (_ & pre & post & _ & -> & _). lia.
  - rewrite (finditer_from_no_match _ _ _ _ _ E).
    apply IH. simpl in Hlen. lia.
Qed.

Lemma filter_flat_map {A B : Type} (f : B -> bool) (g : A -> list B) l :
  filter f (flat_map g l) = flat_map (fun x => filter f (g x)) l.
Proof.
  induction l as [|x l IH]; simpl; [reflexivity|].
  now rewrite filter_app, IH.
Qed.

Lemma issues_of_map {A : Type} t t' (f : A -> issue) l :
  (forall x, type (f x) = t') ->
  issues_of t (map f l) = if issue_type_eqb t' t then map f l else [].
Proof.
  intros H. unfold issues_of. induction l as [|x l IH]; simpl.
  - now destruct (issue_type_eqb t' t).
  - rewrite H, IH. now destruct (issue_type_eqb t' t).
Qed.

Lemma issues_of_repeated_loop t sentences all_starts starts idx :
  t <> repeated_start ->
  issues_of t (repeated_loop sentences all_starts idx starts []) = [].
Proof.
  intros Ht. pose proof (repeated_loop_types sentences all_starts starts idx) as H.
  unfold issues_of. induction H as [|i l Hi _ IH]; simpl; [reflexivity|].
  rewrite Hi, IH. destruct t; try reflexivity. now elim Ht.
Qed.

Lemma first_person_issues_of_sentence p :
  issues_of first_person (issues_at p) = first_person_issues_at p.
Proof.
  unfold issues_at, sentence_issues, first_person_issues_at.
  unfold issues_of at 1. rewrite !filter_app.
  fold (issues_of first_person (map (contraction_issue (fst p) (snd p))
          (pattern_finditer CONTRACTION_PATTERN (snd p)))).
  fold (issues_of first_person (map (informal_issue (fst p) (snd p))
          (pattern_finditer INFORMAL_PATTERN (snd p)))).
  fold (issues_of first_person (map (first_person_issue (fst p) (snd p))
          (pattern_finditer FIRST_PERSON_PATTERN (snd p)))).
  rewrite (issues_of_map _ contraction), (issues_of_map _ informal),
    (issues_of_map _ first_person) by reflexivity.
  simpl. unfold length_issues.
  destruct (35 <? _)%nat; [reflexivity|].
  destruct (_ <? 7)%nat; reflexivity.
Qed.

(** C5.  In every sentence the first-person pattern reports exactly the
    whole-word occurrences of the six literal forms I, we, We, our, Our
    and us, from left to right and each once; the analysis emits one
    first-person issue for each of them and for nothing else, so a
    lower-case "i", or "Us", or "OUR", is never flagged. *)
Theorem first_person_matching :
  (forall s,
     (forall p w,
        In (p, w) (pattern_finditer FIRST_PERSON_PATTERN s) <->
        In w FIRST_PERSON_FORMS /\ whole_word_at s p w) /\
     StronglySorted lt (map fst (pattern_finditer FIRST_PERSON_PATTERN s)) /\
     (forall p, ~ In (p, "i") (pattern_finditer FIRST_PERSON_PATTERN s) /\
                ~ In (p, "Us") (pattern_finditer FIRST_PERSON_PATTERN s) /\
                ~ In (p, "OUR") (pattern_finditer FIRST_PERSON_PATTERN s))) /\
  (forall text,
     issues_of first_person (snd (analyse_text text)) =
     flat_map first_person_issues_at (enumerate 1 (split_sentences text))).
Proof.
  assert (Hscan : forall s p w,
            In (p, w) (pattern_finditer FIRST_PERSON_PATTERN s) <->
            In w FIRST_PERSON_FORMS /\ whole_word_at s p w).
  { intros s p w. unfold pattern_finditer, finditer. simpl.
    rewrite (first_person_scan _ s None 0 (le_n _)).
    unfold whole_word_from, whole_word_at. simpl.
    split; intros (Hw & pre & post & E & Ep & Hpre & Hpost);
      (split; [exact Hw|]); exists pre, post; repeat split; auto. }
  split.
  - intros s. split; [apply Hscan|]. split.
    + apply (first_person_sorted _ s None 0 (le_n _)).
    + intros p. repeat split; intros H; apply Hscan in H as [Hw _];
        simpl in Hw; repeat (destruct Hw as [Hw|Hw]; [discriminate|]);
        contradiction.
  - intros text. rewrite analyse_text_unfold. simpl.
    unfold issues_of at 1. rewrite filter_app, filter_flat_map.
    fold (issues_of first_person
            (repeated_loop (split_sentences text) (recorded_starts text) 1
               (recorded_starts text) [])).
    rewrite issues_of_repeated_loop by discriminate. rewrite app_nil_r.
    apply flat_map_ext. intros p. apply first_person_issues_of_sentence.
Qed.

(** *** The contraction step *)

Lemma contraction_keys_nonempty :
  Forall (fun k => truthy k = true) (keys CONTRACTION_MAP).
Proof. repeat constructor. Qed.

Lemma same_head_spec a b :
  same_head a b = true ->
  truthy a = true /\ truthy b = true /\ head a = head b.
Proof.
  unfold same_head. destruct a as [|x a], b as [|y b]; simpl; try discriminate.
  intros H. apply Ascii.eqb_eq in H. now subst.
Qed.

Lemma key_shape k :
  In k (keys CONTRACTION_MAP) ->
  opt_word (head k) = true /\ opt_word (last_char None k) = true /\
  same_head (repl_contraction k) k = true /\
  opt_word (last_char None (repl_contraction k)) = true.
Proof.
  intros Hk.
  assert (H : key_shape_check = true) by (vm_compute; reflexivity).
  unfold key_shape_check in H. rewrite forallb_forall in H.
  specialize (H k Hk). rewrite !andb_true_iff in H. tauto.
Qed.

Lemma splits_In v u : In (v, u) (splits (v ++ u)).
Proof.
  induction v as [|c v IH]; simpl.
  - destruct u; now left.
  - right. apply in_map_iff. now exists (v, u).
Qed.

Lemma key_suffix v u :
  In (v ++ u) (keys CONTRACTION_MAP) ->
  truthy v = true -> opt_word (last_char None v) = false ->
  all_word u = true /\
  forall m, In m (keys CONTRACTION_MAP) -> first_word (repl_contraction m) <> u.
Proof.
  intros Hk Hv Hlast.
  assert (H : key_suffix_check = true) by (vm_compute; reflexivity).
  unfold key_suffix_check in H. rewrite forallb_forall in H.
  specialize (H _ Hk). rewrite forallb_forall in H.
  specialize (H _ (splits_In v u)). cbn [fst snd] in H.
  rewrite Hv, Hlast in H. cbn [negb andb] in H. apply andb_prop in H as [Hu Hm].
  split; [exact Hu|]. intros m Hin E.
  rewrite forallb_forall in Hm. specialize (Hm m Hin).
  rewrite E, String.eqb_refl in Hm. discriminate.
Qed.

Lemma expand_from_match prev s m r :
  match_here false (keys CONTRACTION_MAP) prev s = Some (m, r) ->
  expand_from prev s = repl_contraction m ++ expand_from (last_char prev m) r.
Proof. apply sub_from_match, contraction_keys_nonempty. Qed.

Lemma expand_from_no_match prev c s :
  match_here false (keys CONTRACTION_MAP) prev (String c s) = None ->
  expand_from prev (String c s) = String c (expand_from (Some c) s).
Proof. apply sub_from_no_match. Qed.

(** What a match tells about its surroundings. *)
Lemma contraction_match prev s m r :
  match_here false (keys CONTRACTION_MAP) prev s = Some (m, r) ->
  In m (keys CONTRACTION_MAP) /\ truthy m = true /\ s = m ++ r /\
  opt_word prev = false /\ opt_word (head r) = false.
Proof.
  intros H.
  destruct (match_here_sound _ contraction_keys_nonempty _ _ _ _ H)
    as (Hm & Hne & Es & Hb & Ha).
  destruct (key_shape m Hm) as (Hh & Hl & _).
  rewrite (last_char_nonempty prev None m Hne) in Ha.
  unfold word_boundary in Hb, Ha. rewrite Hh in Hb. rewrite Hl in Ha.
  repeat split; auto.
  - now destruct (opt_word prev).
  - now destruct (opt_word (head r)).
Qed.

Lemma contraction_match_exists prev k r :
  In k (keys CONTRACTION_MAP) ->
  opt_word prev = false -> opt_word (head r) = false ->
  match_here false (keys CONTRACTION_MAP) prev (k ++ r) <> None.
Proof.
  intros Hk Hp Hr. destruct (key_shape k Hk) as (Hh & Hl & _).
  assert (Hne : truthy k = true) by (destruct k; [discriminate | reflexivity]).
  apply match_here_complete; auto using contraction_keys_nonempty.
  - unfold word_boundary. now rewrite Hp, Hh.
  - rewrite (last_char_nonempty prev None k Hne).
    unfold word_boundary. now rewrite Hl, Hr.
Qed.

Lemma expand_from_prev p q s :
  opt_word p = opt_word q -> expand_from p s = expand_from q s.
Proof.
  intros H. destruct s as [|c s]; [reflexivity|].
  pose proof (match_here_prev _ contraction_keys_nonempty p q (String c s) H) as E.
  destruct (match_here false (keys CONTRACTION_MAP) p (String c s))
    as [[m r]|] eqn:Ep.
  - rewrite (expand_from_match _ _ _ _ Ep).
    symmetry in E. rewrite (expand_from_match _ _ _ _ E).
    destruct (contraction_match _ _ _ _ Ep) as (_ & Hne & _).
    now rewrite (last_char_nonempty p q m Hne).
  - symmetry in E.
    now rewrite (expand_from_no_match _ _ _ Ep), (expand_from_no_match _ _ _ E).
Qed.

(** The expansion starts with the character the text starts with. *)
Lemma expand_from_head p s : head (expand_from p s) = head s.
Proof.
  destruct s as [|c s]; [reflexivity|].
  destruct (match_here false (keys CONTRACTION_MAP) p (String c s))
    as [[m r]|] eqn:E.
  - rewrite (expand_from_match _ _ _ _ E).
    destruct (contraction_match _ _ _ _ E) as (Hm & Hne & Es & _).
    destruct (key_shape m Hm) as (_ & _ & Hsame & _).
    apply same_head_spec in Hsame as (Hre & _ & Hhead).
    rewrite Es, !head_app by assumption. exact Hhead.
  - now rewrite (expand_from_no_match _ _ _ E).
Qed.

Lemma first_word_app e o :
  opt_word (head o) = false -> first_word (e ++ o) = first_word e.
Proof.
  intros Ho. unfold first_word. induction e as [|c e IH]; simpl.
  - destruct o as [|d o]; [reflexivity|]. simpl in Ho |- *. now rewrite Ho.
  - destruct (is_word c); [|reflexivity].
    destruct (span_word (e ++ o)) as [w1 r1], (span_word e) as [w2 r2].
    simpl in *. now rewrite IH.
Qed.

Lemma first_word_run u t :
  all_word u = true -> opt_word (head t) = false -> first_word (u ++ t) = u.
Proof. intros Hu Ht. unfold first_word. now rewrite span_word_app. Qed.

(** If the expansion of [x] continues a key from inside, so does [x]. *)
Lemma expand_reflects_key_suffix u : forall v x t,
  In (v ++ u) (keys CONTRACTION_MAP) -> truthy v = true ->
  expand_from (last_char None v) x = u ++ t ->
  opt_word (head t) = false ->
  exists t', x = u ++ t' /\ opt_word (head t') = false.
Proof.
  induction u as [|d u IH]; intros v x t Hk Hv E Ht.
  - exists x. split; [reflexivity|].
    simpl in E. now rewrite <- (expand_from_head (last_char None v)), E.
  - destruct x as [|c x]; [discriminate|].
    destruct (match_here false (keys CONTRACTION_MAP) (last_char None v)
                (String c x)) as [[m r]|] eqn:Em.
    + exfalso.
      destruct (contraction_match _ _ _ _ Em) as (Hm & Hne & Es & Hp & Hr).
      destruct (key_suffix v (String d u) Hk Hv Hp) as [Hu Hno].
      apply (Hno m Hm).
      rewrite (expand_from_match _ _ _ _ Em) in E.
      rewrite <- (first_word_run (String d u) t Hu Ht), <- E.
      symmetry. apply first_word_app. now rewrite expand_from_head.
    + rewrite (expand_from_no_match _ _ _ Em) in E.
      simpl in E. injection E as -> E.
      destruct (IH (v ++ String d "") x t) as (t' & -> & Ht').
      * now rewrite string_app_assoc.
      * now apply truthy_app_l.
      * now rewrite last_char_app.
      * assumption.
      * now exists t'.
Qed.

(** Where the text has no match, its expansion has none either. *)
Lemma no_match_stable prev c s :
  match_here false (keys CONTRACTION_MAP) prev (String c s) = None ->
  match_here false (keys CONTRACTION_MAP) prev
    (String c (expand_from (Some c) s)) = None.
Proof.
  intros H.
  destruct (match_here false (keys CONTRACTION_MAP) prev
              (String c (expand_from (Some c) s))) as [[k t]|] eqn:E;
    [|reflexivity].
  exfalso.
  destruct (contraction_match _ _ _ _ E) as (Hk & Hne & Es & Hp & Ht).
  destruct k as [|c' u]; [discriminate|]. simpl in Es. injection Es as <- Es.
  destruct (expand_reflects_key_suffix u (String c "") s t Hk eq_refl Es Ht)
    as (t' & -> & Ht').
  now apply (contraction_match_exists prev (String c u) t' Hk Hp Ht').
Qed.

Lemma fixed_key_spec e :
  fixed_key e = true ->
  In e (keys CONTRACTION_MAP) /\ repl_contraction e = e.
Proof.
  unfold fixed_key. intros H. apply andb_prop in H as [Hin Hre].
  apply existsb_exists in Hin as (x & Hx & Ex).
  apply String.eqb_eq in Ex, Hre. now subst.
Qed.

(** An expansion that is a key of its own is matched and put back. *)
Lemma fixed_key_pass e prev o :
  fixed_key e = true ->
  opt_word prev = false -> opt_word (head o) = false ->
  expand_from prev (e ++ o) = e ++ expand_from (last_char None e) o.
Proof.
  intros Hf Hp Ho. destruct (fixed_key_spec e Hf) as [Hin Hre].
  assert (Hc : fixed_key_check = true) by (vm_compute; reflexivity).
  unfold fixed_key_check in Hc. rewrite forallb_forall in Hc.
  specialize (Hc e Hin). rewrite Hf in Hc. cbn [negb orb] in Hc.
  apply andb_prop in Hc as [Hw Hext]. rewrite forallb_forall in Hext.
  destruct (match_here false (keys CONTRACTION_MAP) prev (e ++ o))
    as [[m r]|] eqn:E;
    [|now elim (contraction_match_exists prev e o Hin Hp Ho)].
  destruct (contraction_match _ _ _ _ E) as (Hm & Hne & Es & _ & Hr).
  assert (Eq : m = e /\ r = o).
  { destruct (string_app_eq_app _ _ _ _ Es) as [(e' & Ee & Er)|(x & e' & Em & Eo)].
    - destruct e' as [|x e'].
      + rewrite string_app_nil_r in Ee. simpl in Er. now subst.
      + exfalso. rewrite Ee, all_word_app in Hw.
        apply andb_prop in Hw as [_ Hw]. simpl in Hw.
        apply andb_prop in Hw as [Hx _].
        rewrite Er in Hr. simpl in Hr. congruence.
    - exfalso. specialize (Hext m Hm).
      rewrite Em, match_literal_complete in Hext.
      rewrite Eo in Ho. simpl in Ho. congruence. }
  destruct Eq as [-> ->].
  rewrite (expand_from_match _ _ _ _ E), Hre.
  now rewrite (last_char_nonempty prev None e Hne).
Qed.

(** Any other expansion is passed without a match inside it. *)
Lemma plain_expansion_pass m prev o :
  In m (keys CONTRACTION_MAP) ->
  fixed_key (repl_contraction m) = false ->
  opt_word prev = false -> opt_word (head o) = false ->
  forall u v,
    repl_contraction m = v ++ u ->
    expand_from (last_char prev v) (u ++ o) =
    u ++ expand_from (last_char prev (v ++ u)) o.
Proof.
  intros Hm Hf Hp Ho.
  assert (Hc : expansion_check = true) by (vm_compute; reflexivity).
  unfold expansion_check in Hc. rewrite forallb_forall in Hc.
  specialize (Hc m Hm). cbv zeta in Hc. rewrite Hf in Hc. cbn [orb] in Hc.
  rewrite forallb_forall in Hc.
  induction u as [|c u IH]; intros v Ee.
  - simpl. now rewrite string_app_nil_r.
  - assert (Hnone : match_here false (keys CONTRACTION_MAP) (last_char prev v)
                      (String c u ++ o) = None).
    { destruct (match_here false (keys CONTRACTION_MAP) (last_char prev v)
                  (String c u ++ o)) as [[k t]|] eqn:E; [|reflexivity].
      exfalso.
      destruct (match_here_sound _ contraction_keys_nonempty _ _ _ _ E)
        as (Hk & Hne & Es & Hb & _).
      destruct (contraction_match _ _ _ _ E) as (_ & _ & _ & _ & Ht).
      specialize (Hc (v, String c u)). rewrite Ee in Hc.
      specialize (Hc (splits_In v (String c u))).
      cbn [fst snd truthy negb orb] in Hc.
      rewrite forallb_forall in Hc. specialize (Hc k Hk).
      apply negb_true_iff in Hc.
      assert (Hfit : key_fits v (String c u) k = true); [|congruence].
      unfold key_fits. apply andb_true_intro. split.
      - assert (Hk0 : head k = Some c).
        { destruct k as [|y k]; [discriminate|].
          simpl in Es. now injection Es as -> _. }
        rewrite Hk0 in Hb. simpl.
        destruct v as [|y v]; [|exact Hb].
        simpl in Hb |- *. unfold word_boundary in *. simpl.
        now rewrite Hp in Hb.
      - destruct (string_app_eq_app _ _ _ _ Es)
          as [(e' & Eu & Et)|(x & e' & Ek & Eo)].
        + apply orb_true_intro. left.
          rewrite Eu, match_literal_complete.
          apply negb_true_iff.
          destruct e' as [|x e']; [reflexivity|].
          rewrite Et in Ht. exact Ht.
        + apply orb_true_intro. right.
          rewrite Ek, match_literal_complete.
          rewrite Eo in Ho. simpl in Ho. now rewrite Ho. }
    change (String c u ++ o) with (String c (u ++ o)) in *.
    rewrite (expand_from_no_match _ _ _ Hnone).
    specialize (IH (v ++ String c "")).
    rewrite !last_char_app in IH. simpl in IH.
    rewrite IH by (now rewrite string_app_assoc).
    now rewrite !last_char_app.
Qed.

Lemma expansion_pass m prev o :
  In m (keys CONTRACTION_MAP) ->
  opt_word prev = false -> opt_word (head o) = false ->
  expand_from prev (repl_contraction m ++ o) =
  repl_contraction m ++ expand_from (last_char None (repl_contraction m)) o.
Proof.
  intros Hm Hp Ho.
  destruct (fixed_key (repl_contraction m)) eqn:Hf.
  - now apply fixed_key_pass.
  - pose proof (plain_expansion_pass m prev o Hm Hf Hp Ho
                  (repl_contraction m) "" eq_refl) as H.
    simpl in H. rewrite H.
    destruct (key_shape m Hm) as (_ & _ & Hsame & _).
    apply same_head_spec in Hsame as (Hne & _).
    now rewrite (last_char_nonempty prev None _ Hne).
Qed.

Lemma expand_from_idempotent : forall n s prev,
  String.length s <= n ->
  expand_from prev (expand_from prev s) = expand_from prev s.
Proof.
  induction n as [|n IH]; intros s prev Hlen.
  { destruct s; [reflexivity | simpl in Hlen; lia]. }
  destruct s as [|c s]; [reflexivity|].
  destruct (match_here false (keys CONTRACTION_MAP) prev (String c s))
    as [[m r]|] eqn:E.
  - rewrite (expand_from_match _ _ _ _ E).
    destruct (contraction_match _ _ _ _ E) as (Hm & Hne & Es & Hp & Hr).
    destruct (key_shape m Hm) as (_ & Hl & _ & Hle).
    rewrite expansion_pass by (auto; now rewrite expand_from_head).
    f_equal.
    rewrite (expand_from_prev _ (last_char prev m))
      by (now rewrite Hle, (last_char_nonempty prev None m Hne), Hl).
    apply IH.
    rewrite Es, string_length_app in Hlen.
    destruct m; [discriminate|]. simpl in Hlen. lia.
  - rewrite (expand_from_no_match _ _ _ E).
    rewrite (expand_from_no_match _ _ _ (no_match_stable _ _ _ E)).
    f_equal. apply IH. simpl in Hlen. lia.
Qed.

(** C7, as the specification states it, fails in its reason: the
    expansion "cannot" of "can't" contains the key "cannot" as a whole
    word. *)
Lemma expansion_contains_key : ~ idempotent_for_lack_of_keys.
Proof.
  intros [_ H]. specialize (H "can't" "cannot").
  assert (Hin : In ("can't", "cannot") CONTRACTION_MAP)
    by (simpl; tauto).
  specialize (H Hin). vm_compute in H. discriminate.
Qed.

(** C7, amended.  The contraction step of the rewriter is idempotent on
    every text.  The only key of the table that occurs as a whole word
    in an expansion of the table is "cannot", and its expansion is
    "cannot" again. *)
Theorem expand_contractions_idempotent :
  (forall text,
     expand_contractions (expand_contractions text) =
     expand_contractions text) /\
  (forall k v p w,
     In (k, v) CONTRACTION_MAP ->
     In (p, w) (pattern_finditer CONTRACTION_PATTERN v) ->
     w = "cannot" /\ repl_contraction w = w).
Proof.
  split.
  - intros text. apply (expand_from_idempotent _ text None (le_n _)).
  - intros k v p w Hkv Hw.
    assert (Hc : expansion_keys_check = true) by (vm_compute; reflexivity).
    unfold expansion_keys_check in Hc. rewrite forallb_forall in Hc.
    specialize (Hc _ Hkv). rewrite forallb_forall in Hc.
    specialize (Hc _ Hw). cbn [snd] in Hc. apply String.eqb_eq in Hc.
    now subst w.
Qed.

Lemma expand_contractions_idempotent_witness :
  expand_contractions (expand_contractions "We can't say it's done.") =
  expand_contractions "We can't say it's done." /\
  ("cannot" = "cannot" /\ repl_contraction "cannot" = "cannot").
Proof.
  destruct expand_contractions_idempotent as [Hidem Hkeys].
  split.
  - apply Hidem.
  - apply (Hkeys "can't" "cannot" 0 "cannot").
    + simpl. tauto.
    + vm_compute. left. reflexivity.
Defined.

(** ** Further properties of the program *)

(** *** The sentence splitter *)

Lemma sentence_list_shape l :
  sentence_list l ->
  Forall (fun s => truthy s = true /\ strip s = s) l /\
  (forall s pre c post,
     In s l -> s = pre ++ String c post -> is_terminal c = true ->
     post = "") /\
  (forall i s,
     S i < List.length l -> nth_error l i = Some s ->
     exists body m, s = body ++ String m "" /\ is_terminal m = true).
Proof.
  induction 1 as [|s (Hs & Hstrip & Hne)
                  |s l (body & m & E & Hb & Hm & Hstrip) Hl (IH1 & IH2 & IH3)].
  - repeat split; [constructor | contradiction | simpl; lia].
  - repeat split.
    + repeat constructor; assumption.
    + intros s' pre c post [<-|[]] E Hc. exfalso.
      rewrite E, has_terminal_app in Hs. simpl in Hs.
      rewrite Hc in Hs. simpl in Hs. now rewrite orb_true_r in Hs.
    + simpl. lia.
  - repeat split.
    + constructor; [|exact IH1]. split; [|exact Hstrip].
      rewrite E. apply truthy_marked.
    + intros s' pre c post [<-|Hin] E' Hc; [|now apply (IH2 s' pre c post)].
      rewrite E in E'. symmetry in E'.
      destruct (string_app_eq_app _ _ _ _ E') as [(e & Ee & Em)|(x & e & Eb & Ec)].
      * destruct e as [|y e]; simpl in Em.
        -- now injection Em.
        -- injection Em as _ Em. destruct e; discriminate.
      * exfalso. simpl in Ec. injection Ec as <- _.
        rewrite Eb, has_terminal_app in Hb. simpl in Hb.
        rewrite Hc in Hb. simpl in Hb. now rewrite orb_true_r in Hb.
    + intros [|i] s' Hlen Hn; simpl in Hn.
      * injection Hn as <-. now exists body, m.
      * apply (IH3 i s'); [simpl in Hlen; lia | exact Hn].
Qed.

(** X1.  Every sentence the splitter returns is non-empty and trimmed;
    a terminal mark can only be its last character; and every sentence
    but the last one ends with a terminal mark. *)
Theorem split_sentences_shape (text : string) :
  Forall (fun s => truthy s = true /\ strip s = s) (split_sentences text) /\
  (forall s pre c post,
     In s (split_sentences text) -> s = pre ++ String c post ->
     is_terminal c = true -> post = "") /\
  (forall i s,
     S i < List.length (split_sentences text) ->
     nth_error (split_sentences text) i = Some s ->
     exists body m, s = body ++ String m "" /\ is_terminal m = true).
Proof. apply sentence_list_shape, split_sentences_sentence_list. Qed.

Lemma drop_spaces_app a b : drop_spaces (a ++ b) = drop_spaces a ++ drop_spaces b.
Proof.
  induction a as [|c a IH]; [reflexivity|]. simpl.
  destruct (is_space c); [exact IH | simpl; now rewrite IH].
Qed.

Lemma drop_spaces_lstrip s : drop_spaces (lstrip s) = drop_spaces s.
Proof.
  induction s as [|c s IH]; [reflexivity|]. simpl.
  destruct (is_space c) eqn:E; [exact IH|]. simpl. now rewrite E.
Qed.

Lemma drop_spaces_rstrip s : drop_spaces (rstrip s) = drop_spaces s.
Proof.
  induction s as [|c s IH]; [reflexivity|]. simpl.
  destruct (rstrip s) as [|d r] eqn:E.
  - destruct (is_space c) eqn:Ec; simpl; rewrite ?Ec; now rewrite <- IH.
  - simpl in *. destruct (is_space c); now rewrite <- IH.
Qed.

Lemma drop_spaces_strip s : drop_spaces (strip s) = drop_spaces s.
Proof. unfold strip. now rewrite drop_spaces_rstrip, drop_spaces_lstrip. Qed.

Lemma drop_spaces_space_after_terminal : forall n s,
  String.length s <= n ->
  drop_spaces (space_after_terminal s) = drop_spaces s.
Proof.
  induction n as [|n IH]; intros s Hlen.
  { destruct s; [reflexivity | simpl in Hlen; lia]. }
  destruct s as [|c [|d s]]; try reflexivity.
  rewrite space_after_terminal_step.
  destruct (is_terminal c && is_ascii_letter d).
  - change (String c (String " " (String d (space_after_terminal s))))
      with ((String c (String " " (String d ""))) ++ space_after_terminal s).
    change (String c (String d s)) with (String c (String d "") ++ s).
    rewrite !drop_spaces_app, IH by (simpl in Hlen; lia).
    f_equal; simpl; destruct (is_space c); reflexivity.
  - change (String c (space_after_terminal (String d s)))
      with (String c "" ++ space_after_terminal (String d s)).
    change (String c (String d s)) with (String c "" ++ String d s).
    rewrite !drop_spaces_app, IH by (simpl in Hlen |- *; lia).
    reflexivity.
Qed.

Lemma concat_empty_cons x l : String.concat "" (x :: l) = x ++ String.concat "" l.
Proof. destruct l; simpl; [now rewrite string_app_nil_r | reflexivity]. Qed.

Lemma concat_empty_app l1 l2 :
  String.concat "" (l1 ++ l2) = String.concat "" l1 ++ String.concat "" l2.
Proof.
  induction l1 as [|x l1 IH]; [reflexivity|].
  change ((x :: l1) ++ l2)%list with (x :: (l1 ++ l2))%list.
  now rewrite !concat_empty_cons, IH, string_app_assoc.
Qed.

(** The pieces of [re.split] with a capturing group put together give
    the text back. *)
Lemma split_terminal_concat s : String.concat "" (split_terminal s) = s.
Proof.
  induction s as [|c s IH]; [reflexivity|]. simpl.
  destruct (is_terminal c).
  - rewrite !concat_empty_cons, IH. reflexivity.
  - destruct (split_terminal s) as [|p ps] eqn:E.
    + now elim (split_terminal_nonempty s).
    + rewrite concat_empty_cons in *. simpl. now rewrite IH.
Qed.

Lemma split_terminal_length s :
  List.length (split_terminal s) = 2 * count_terminal s + 1.
Proof.
  induction s as [|c s IH]; [reflexivity|]. simpl.
  destruct (is_terminal c).
  - simpl. rewrite IH. lia.
  - destruct (split_terminal s) as [|p ps] eqn:E.
    + now elim (split_terminal_nonempty s).
    + simpl in *. lia.
Qed.

Lemma drop_spaces_empty_strip a :
  truthy (strip a) = false -> drop_spaces a = "".
Proof.
  intros H. rewrite <- drop_spaces_strip.
  destruct (strip a); [reflexivity | discriminate].
Qed.

Lemma assemble_drop_spaces : forall n parts,
  List.length parts = 2 * n + 1 ->
  drop_spaces (String.concat "" (assemble parts)) =
  drop_spaces (String.concat "" parts) /\
  List.length (assemble parts) <= n + 1.
Proof.
  induction n as [|n IH]; intros parts Hlen.
  - destruct parts as [|a [|b parts]]; simpl in Hlen; try lia.
    rewrite assemble_plain. simpl String.concat.
    destruct (truthy (strip a)) eqn:E; simpl.
    + split; [apply drop_spaces_strip | lia].
    + split; [symmetry; now apply drop_spaces_empty_strip | lia].
  - destruct parts as [|a [|b parts]]; simpl in Hlen; try lia.
    assert (Hne : parts <> []) by (destruct parts; [simpl in Hlen; lia | discriminate]).
    destruct (IH parts ltac:(lia)) as [IHd IHl].
    rewrite assemble_pair by assumption.
    rewrite concat_empty_app, !drop_spaces_app, IHd.
    rewrite (concat_empty_cons a), (concat_empty_cons b).
    rewrite <- string_app_assoc, drop_spaces_app, length_app.
    destruct (truthy (strip (a ++ b))) eqn:E; simpl String.concat.
    + rewrite drop_spaces_strip. split; [reflexivity | simpl; lia].
    + rewrite (drop_spaces_empty_strip _ E). split; [reflexivity | simpl; lia].
Qed.

Lemma count_terminal_app a b :
  count_terminal (a ++ b) = count_terminal a + count_terminal b.
Proof. induction a as [|c a IH]; simpl; [reflexivity | rewrite IH; lia]. Qed.

Lemma count_terminal_space_after_terminal : forall n s,
  String.length s <= n ->
  count_terminal (space_after_terminal s) = count_terminal s.
Proof.
  induction n as [|n IH]; intros s Hlen.
  { destruct s; [reflexivity | simpl in Hlen; lia]. }
  destruct s as [|c [|d s]]; try reflexivity.
  rewrite space_after_terminal_step.
  destruct (is_terminal c && is_ascii_letter d).
  - cbn [count_terminal]. rewrite IH by (simpl in Hlen; lia).
    change (is_terminal " ") with false. cbv iota. lia.
  - cbn [count_terminal].
    rewrite IH by (simpl in Hlen |- *; lia). reflexivity.
Qed.

Lemma split_sentences_drop_spaces text :
  drop_spaces (String.concat "" (split_sentences text)) = drop_spaces text.
Proof.
  rewrite split_sentences_assemble.
  pose proof (split_terminal_length (space_after_terminal text)) as Hlen.
  destruct (assemble_drop_spaces _ _ Hlen) as [Hd _].
  rewrite Hd, split_terminal_concat.
  apply (drop_spaces_space_after_terminal _ _ (le_n _)).
Qed.

(** X2.  The splitter only moves or removes whitespace: the sentences
    put together have the same non-whitespace characters, in the same
    order, as the text. *)
Theorem split_sentences_keeps_characters (text : string) :
  drop_spaces (String.concat "" (split_sentences text)) = drop_spaces text.
Proof. apply split_sentences_drop_spaces. Qed.

(** X3.  A text with [n] terminal marks gives at most [n + 1] sentences. *)
Theorem split_sentences_count_bound (text : string) :
  List.length (split_sentences text) <= count_terminal text + 1.
Proof.
  rewrite split_sentences_assemble.
  pose proof (split_terminal_length (space_after_terminal text)) as Hlen.
  destruct (assemble_drop_spaces _ _ Hlen) as [_ Hl].
  now rewrite (count_terminal_space_after_terminal _ _ (le_n _)) in Hl.
Qed.

(** X4.  A text of whitespace only, the empty text included, has no
    sentence and no issue. *)
Theorem blank_text_has_no_sentence (text : string) :
  all_space text = true ->
  split_sentences text = [] /\ analyse_text text = ([], []).
Proof.
  intros H.
  assert (Hs : split_sentences text = []).
  { unfold split_sentences.
    rewrite space_after_terminal_plain, split_terminal_plain
      by now apply all_space_no_terminal.
    simpl. now rewrite (strip_only_space text H). }
  split; [exact Hs|].
  rewrite analyse_text_unfold. unfold recorded_starts. now rewrite Hs.
Qed.

Lemma blank_text_has_no_sentence_witness :
  split_sentences "   " = [] /\ analyse_text "   " = ([], []).
Proof. apply (blank_text_has_no_sentence "   "). reflexivity. Defined.

(** X5.  Inserting the space after a terminal mark a second time
    changes nothing. *)
Theorem space_after_terminal_idempotent (text : string) :
  space_after_terminal (space_after_terminal text) = space_after_terminal text.
Proof.
  assert (H : forall n s, String.length s <= n ->
            space_after_terminal (space_after_terminal s) =
            space_after_terminal s).
  { induction n as [|n IH]; intros s Hlen.
    { destruct s; [reflexivity | simpl in Hlen; lia]. }
    destruct s as [|c [|d s]]; try reflexivity.
    rewrite space_after_terminal_step.
    destruct (is_terminal c && is_ascii_letter d) eqn:E.
    - apply andb_prop in E as [Hc Hd].
      rewrite space_after_terminal_step.
      change (is_ascii_letter " ") with false. rewrite andb_false_r.
      rewrite (space_after_terminal_cons " ") by reflexivity.
      assert (Hdt : is_terminal d = false).
      { destruct (is_terminal d) eqn:Ed; [|reflexivity].
        apply terminal_not_letter in Ed. congruence. }
      rewrite (space_after_terminal_cons d) by assumption.
      rewrite IH by (simpl in Hlen; lia). reflexivity.
    - destruct (space_after_terminal_head d s) as [r Hr].
      assert (IHd := IH (String d s) ltac:(simpl in Hlen |- *; lia)).
      rewrite Hr in *. rewrite space_after_terminal_step, E.
      now rewrite IHd. }
  apply (H _ _ (le_n _)).
Qed.

(** *** The issue aggregator *)

Lemma sentence_issues_fields idx s words i :
  In i (sentence_issues idx s words) ->
  sentence_index i = idx /\ extract i = s /\ type i <> repeated_start.
Proof.
  unfold sentence_issues, length_issues. rewrite !in_app_iff.
  intros [H|[H|[H|H]]].
  - destruct (35 <? _)%nat; [|destruct (_ <? 7)%nat];
      simpl in H; try contradiction;
      destruct H as [<-|[]]; repeat split; discriminate.
  - apply in_map_iff in H as (m & <- & _). repeat split; discriminate.
  - apply in_map_iff in H as (m & <- & _). repeat split; discriminate.
  - apply in_map_iff in H as (m & <- & _). repeat split; discriminate.
Qed.

Lemma enumerate_nth l : forall idx k s,
  In (k, s) (enumerate idx l) <->
  idx <= k /\ nth_error l (k - idx) = Some s.
Proof.
  induction l as [|x l IH]; intros idx k s; simpl.
  - split; [contradiction|]. intros [_ H]. destruct (k - idx); discriminate.
  - rewrite IH. split.
    + intros [E|[Hle Hn]].
      * inversion E; subst. rewrite Nat.sub_diag. now split.
      * split; [lia|]. now replace (k - idx) with (S (k - S idx)) by lia.
    + intros [Hle Hn]. destruct (k - idx) as [|j] eqn:E.
      * left. simpl in Hn. injection Hn as ->. f_equal. lia.
      * right. split; [lia|]. simpl in Hn.
        now replace (k - S idx) with j by lia.
Qed.

Lemma enumerate_fst_sorted l : forall idx,
  StronglySorted lt (map fst (enumerate idx l)).
Proof.
  induction l as [|x l IH]; intros idx; simpl; constructor; [apply IH|].
  apply Forall_forall. intros k Hk.
  apply in_map_iff in Hk as ([k' s] & <- & Hin).
  apply enumerate_nth in Hin. simpl. lia.
Qed.

Lemma sorted_filter_fst {A : Type} (R : nat -> nat -> Prop)
  (f : nat * A -> bool) l :
  StronglySorted R (map fst l) -> StronglySorted R (map fst (filter f l)).
Proof.
  induction l as [|x l IH]; simpl; intros H; [constructor|].
  inversion H as [|? ? Hs Hall]; subst.
  destruct (f x); [|now apply IH].
  simpl. constructor; [now apply IH|].
  rewrite Forall_forall in *. intros k Hk. apply Hall.
  apply in_map_iff in Hk as (y & <- & Hy). apply filter_In in Hy as [Hy _].
  now apply in_map.
Qed.

Lemma repeated_loop_filter sentences all_starts starts : forall idx,
  repeated_loop sentences all_starts idx starts [] =
  map (fun p => repeated_start_issue sentences (fst p) (snd p))
      (filter (repeated_key all_starts) (enumerate idx starts)).
Proof.
  induction starts as [|st rest IH]; intros idx; simpl; [reflexivity|].
  unfold repeated_key at 1. simpl.
  destruct (truthy st && (2 <? counter all_starts st)%nat).
  - rewrite repeated_loop_app, IH. reflexivity.
  - apply IH.
Qed.

Lemma recorded_starts_length text :
  List.length (recorded_starts text) = List.length (split_sentences text).
Proof.
  unfold recorded_starts. rewrite sentence_loop_starts. simpl.
  apply length_map.
Qed.

Lemma sentence_part_fields text i :
  In i (flat_map issues_at (enumerate 1 (split_sentences text))) ->
  exists s, In (sentence_index i, s) (enumerate 1 (split_sentences text)) /\
            extract i = s /\ type i <> repeated_start.
Proof.
  intros H. apply in_flat_map in H as ([k s] & Hin & Hi).
  unfold issues_at in Hi. simpl in Hi.
  apply sentence_issues_fields in Hi as (Hk & Hs & Ht). subst k s.
  now exists (extract i).
Qed.

(** X6.  Every issue carries the index of a sentence of the text,
    counted from 1, and its extract is that sentence. *)
Theorem issue_points_to_its_sentence (text : string) (i : issue) :
  In i (snd (analyse_text text)) ->
  1 <= sentence_index i <= List.length (fst (analyse_text text)) /\
  nth_error (fst (analyse_text text)) (sentence_index i - 1) = Some (extract i).
Proof.
  rewrite analyse_text_unfold. simpl. intros H.
  apply in_app_or in H as [H|H].
  - apply sentence_part_fields in H as (s & Hin & <- & _).
    apply enumerate_nth in Hin as [Hle Hn].
    pose proof (proj1 (nth_error_Some _ _) ltac:(rewrite Hn; discriminate)).
    repeat split; [lia | lia | exact Hn].
  - rewrite repeated_loop_filter in H.
    apply in_map_iff in H as ([k st] & <- & Hin).
    apply filter_In in Hin as [Hin _].
    apply enumerate_nth in Hin as [Hle Hn]. simpl.
    pose proof (proj1 (nth_error_Some _ _) ltac:(rewrite Hn; discriminate)) as Hk.
    rewrite recorded_starts_length in Hk.
    repeat split; [lia | lia |].
    apply nth_error_nth'. lia.
Qed.

Lemma issue_points_to_its_sentence_witness :
  nth_error (fst (analyse_text "We can't go. It is far."))
    (sentence_index (short_issue 1 3 "We can't go.") - 1) =
  Some "We can't go.".
Proof.
  apply (issue_points_to_its_sentence "We can't go. It is far."
           (short_issue 1 3 "We can't go.")).
  vm_compute. left. reflexivity.
Defined.

Lemma sorted_le_app l1 l2 :
  StronglySorted le l1 -> StronglySorted le l2 ->
  (forall x y, In x l1 -> In y l2 -> x <= y) ->
  StronglySorted le (l1 ++ l2).
Proof.
  induction l1 as [|a l1 IH]; simpl; intros H1 H2 Hc; [assumption|].
  inversion H1 as [|? ? Hs Hall]; subst.
  constructor.
  - apply IH; auto.
  - apply Forall_app. split; [assumption|].
    apply Forall_forall. intros y Hy. apply Hc; auto.
Qed.

Lemma sentence_part_sorted l : forall idx,
  StronglySorted le (map sentence_index (flat_map issues_at (enumerate idx l))).
Proof.
  induction l as [|s l IH]; intros idx; simpl; [constructor|].
  rewrite map_app. apply sorted_le_app.
  - unfold issues_at. simpl.
    set (found := sentence_issues idx s (findall_token_group s)).
    assert (Hall : Forall (fun i => sentence_index i = idx) found).
    { apply Forall_forall. intros i Hi.
      now apply sentence_issues_fields in Hi as [-> _]. }
    clearbody found.
    induction Hall as [|i found Hi Hall IHis]; simpl; constructor.
    + exact IHis.
    + rewrite Hi. clear - Hall. induction Hall; simpl; constructor; auto. lia.
  - apply IH.
  - intros x y Hx Hy.
    apply in_map_iff in Hx as (i & <- & Hi).
    apply sentence_issues_fields in Hi as [-> _].
    apply in_map_iff in Hy as (j & <- & Hj).
    apply in_flat_map in Hj as ([k s'] & Hin & Hj).
    apply sentence_issues_fields in Hj as [-> _].
    apply enumerate_nth in Hin. simpl. lia.
Qed.

(** X7.  The issues come in two runs: first those of the per-sentence
    checks, in the order of the sentences, then the repeated-start
    issues, one sentence at most once and in increasing order. *)
Theorem issues_are_ordered (text : string) :
  exists per_sentence repeated,
    snd (analyse_text text) = (per_sentence ++ repeated)%list /\
    Forall (fun i => type i <> repeated_start) per_sentence /\
    Forall (fun i => type i = repeated_start) repeated /\
    StronglySorted le (map sentence_index per_sentence) /\
    StronglySorted lt (map sentence_index repeated).
Proof.
  rewrite analyse_text_unfold. simpl.
  eexists _, _. split; [reflexivity|]. repeat split.
  - apply Forall_forall. intros i Hi.
    now apply sentence_part_fields in Hi as (s & _ & _ & Ht).
  - apply repeated_loop_types.
  - apply sentence_part_sorted.
  - rewrite repeated_loop_filter, map_map. simpl.
    apply sorted_filter_fst, enumerate_fst_sorted.
Qed.

Lemma issues_of_app t l1 l2 :
  issues_of t (l1 ++ l2) = (issues_of t l1 ++ issues_of t l2)%list.
Proof. apply filter_app. Qed.

Lemma issues_of_all t l :
  Forall (fun i => type i = t) l -> issues_of t l = l.
Proof.
  induction 1 as [|i l Hi _ IH]; [reflexivity|].
  unfold issues_of in *. simpl. rewrite Hi, IH. now destruct t.
Qed.

Lemma issues_of_none t l :
  Forall (fun i => type i <> t) l -> issues_of t l = [].
Proof.
  induction 1 as [|i l Hi _ IH]; [reflexivity|].
  unfold issues_of in *. simpl. rewrite IH.
  destruct (type i), t; try reflexivity; now elim Hi.
Qed.

Lemma repeated_issues_of_text text :
  issues_of repeated_start (snd (analyse_text text)) =
  map (fun p => repeated_start_issue (split_sentences text) (fst p) (snd p))
      (filter (repeated_key (recorded_starts text))
              (enumerate 1 (recorded_starts text))).
Proof.
  rewrite analyse_text_unfold. simpl. rewrite issues_of_app.
  rewrite issues_of_none, issues_of_all.
  - apply repeated_loop_filter.
  - apply repeated_loop_types.
  - apply Forall_forall. intros i Hi.
    now apply sentence_part_fields in Hi as (s & _ & _ & Ht).
Qed.

Lemma filter_enumerate_length (f : string -> bool) l : forall idx,
  List.length (filter (fun p => f (snd p)) (enumerate idx l)) =
  List.length (filter f l).
Proof.
  induction l as [|x l IH]; intros idx; simpl; [reflexivity|].
  destruct (f x); simpl; now rewrite IH.
Qed.

Lemma count_occ_filter_true (f : string -> bool) x l :
  f x = true -> count_occ string_dec (filter f l) x = count_occ string_dec l x.
Proof.
  intros Hx. induction l as [|y l IH]; simpl; [reflexivity|].
  destruct (string_dec y x) as [->|Hn].
  - rewrite Hx. simpl. destruct (string_dec x x); [now rewrite IH | contradiction].
  - destruct (f y); simpl; [|exact IH].
    destruct (string_dec y x); [contradiction | exact IH].
Qed.

Lemma frequent_keys_come_in_threes (g : string -> bool) l :
  let f := fun x => g x && (2 <? count_occ string_dec l x)%nat in
  filter f l = [] \/ 3 <= List.length (filter f l).
Proof.
  intros f. destruct (filter f l) as [|x r] eqn:E; [now left|]. right.
  rewrite <- E.
  assert (Hx : f x = true).
  { assert (Hin : In x (filter f l)) by (rewrite E; now left).
    now apply filter_In in Hin. }
  pose proof (count_occ_bound string_dec x (filter f l)) as Hb.
  rewrite (count_occ_filter_true f x l Hx) in Hb.
  unfold f in Hx. apply andb_prop in Hx as [_ Hx].
  apply Nat.ltb_lt in Hx. lia.
Qed.

(** X8.  The sentences reported as repeated starts are those whose
    recorded key is non-empty and was recorded more than twice; so there
    are never just one or two repeated-start issues, and never more than
    there are sentences. *)
Theorem repeated_start_issues (text : string) :
  let repeated := issues_of repeated_start (snd (analyse_text text)) in
  map sentence_index repeated =
    map fst (filter (repeated_key (recorded_starts text))
                    (enumerate 1 (recorded_starts text))) /\
  List.length repeated <> 1 /\ List.length repeated <> 2 /\
  List.length repeated <= List.length (fst (analyse_text text)).
Proof.
  cbv zeta. rewrite repeated_issues_of_text.
  split; [now rewrite map_map|].
  rewrite length_map.
  unfold repeated_key.
  rewrite (filter_enumerate_length
             (fun st => truthy st && (2 <? counter (recorded_starts text) st)%nat)).
  pose proof (frequent_keys_come_in_threes truthy (recorded_starts text)) as H.
  cbv zeta in H. unfold counter.
  pose proof (filter_length_le
    (fun x => truthy x && (2 <? count_occ string_dec (recorded_starts text) x)%nat)
    (recorded_starts text)) as Hle.
  rewrite recorded_starts_length in Hle.
  rewrite analyse_text_unfold. simpl.
  destruct H as [H|H]; [rewrite H in *; simpl; lia | lia].
Qed.

Lemma issues_of_flat_map {A : Type} t (g : A -> list issue) l :
  issues_of t (flat_map g l) = flat_map (fun x => issues_of t (g x)) l.
Proof. apply filter_flat_map. Qed.

Lemma length_issues_of_sentence p :
  issues_of short_sentence (issues_at p) =
    (if (word_count (snd p) <? 7)%nat
     then [short_issue (fst p) (word_count (snd p)) (snd p)] else []) /\
  map sentence_index (issues_of long_sentence (issues_at p)) =
    (if (35 <? word_count (snd p))%nat then [fst p] else []).
Proof.
  unfold issues_at, sentence_issues, word_count.
  rewrite !issues_of_app.
  rewrite !(issues_of_map short_sentence contraction),
    !(issues_of_map short_sentence informal),
    !(issues_of_map short_sentence first_person),
    !(issues_of_map long_sentence contraction),
    !(issues_of_map long_sentence informal),
    !(issues_of_map long_sentence first_person) by reflexivity.
  simpl. rewrite !app_nil_r. unfold length_issues.
  set (n := List.length (findall_token_group (snd p))).
  destruct (35 <? n)%nat eqn:E1, (n <? 7)%nat eqn:E2; try (now split).
  apply Nat.ltb_lt in E1, E2. lia.
Qed.

Lemma flat_map_filter_map {A B C : Type} (f : A -> bool) (g : A -> list B)
  (h : B -> C) (k : A -> C) l :
  (forall x, map h (g x) = if f x then [k x] else []) ->
  map h (flat_map g l) = map k (filter f l).
Proof.
  intros H. induction l as [|x l IH]; simpl; [reflexivity|].
  rewrite map_app, H, IH. now destruct (f x).
Qed.

(** X9.  A sentence gets a short-sentence issue exactly when it has
    fewer than 7 tokens and a long-sentence issue exactly when it has
    more than 35; no sentence gets both. *)
Theorem length_issues_by_word_count (text : string) :
  let issues := snd (analyse_text text) in
  let sentences := enumerate 1 (fst (analyse_text text)) in
  map sentence_index (issues_of short_sentence issues) =
    map fst (filter (fun p => (word_count (snd p) <? 7)%nat) sentences) /\
  map sentence_index (issues_of long_sentence issues) =
    map fst (filter (fun p => (35 <? word_count (snd p))%nat) sentences) /\
  (forall idx,
     ~ (In idx (map sentence_index (issues_of short_sentence issues)) /\
        In idx (map sentence_index (issues_of long_sentence issues)))).
Proof.
  cbv zeta. rewrite analyse_text_unfold. simpl.
  rewrite !issues_of_app.
  rewrite !(issues_of_none _ (repeated_loop _ _ _ _ _))
    by (eapply Forall_impl; [|apply repeated_loop_types];
        intros i Hi; rewrite Hi; discriminate).
  rewrite !app_nil_r, !issues_of_flat_map.
  assert (Hs : map sentence_index
                 (flat_map (fun x => issues_of short_sentence (issues_at x))
                    (enumerate 1 (split_sentences text))) =
               map fst (filter (fun p => (word_count (snd p) <? 7)%nat)
                          (enumerate 1 (split_sentences text)))).
  { apply flat_map_filter_map. intros p.
    rewrite (proj1 (length_issues_of_sentence p)).
    now destruct (_ <? 7)%nat. }
  assert (Hl : map sentence_index
                 (flat_map (fun x => issues_of long_sentence (issues_at x))
                    (enumerate 1 (split_sentences text))) =
               map fst (filter (fun p => (35 <? word_count (snd p))%nat)
                          (enumerate 1 (split_sentences text)))).
  { apply flat_map_filter_map. intros p.
    apply (proj2 (length_issues_of_sentence p)). }
  split; [exact Hs|]. split; [exact Hl|].
  intros idx [H1 H2]. rewrite Hs in H1. rewrite Hl in H2.
  apply in_map_iff in H1 as ([k1 s1] & <- & H1).
  apply in_map_iff in H2 as ([k2 s2] & E & H2). simpl in E. subst k2.
  apply filter_In in H1 as [H1 Hc1]. apply filter_In in H2 as [H2 Hc2].
  apply enumerate_nth in H1 as [_ H1]. apply enumerate_nth in H2 as [_ H2].
  simpl in *. rewrite H1 in H2. injection H2 as <-.
  apply Nat.ltb_lt in Hc1, Hc2. lia.
Qed.

(** *** The patterns and the rewriter *)

Lemma match_literal_text ic k : forall s m r,
  match_literal ic k s = Some (m, r) ->
  s = m ++ r /\
  (if ic then lower m = lower k else m = k).
Proof.
  induction k as [|p k IH]; intros s m r H; simpl in H.
  - inversion H; subst. split; [reflexivity | now destruct ic].
  - destruct s as [|c s]; [discriminate|].
    destruct (char_matches ic p c) eqn:Ec; [|discriminate].
    destruct (match_literal ic k s) as [[m' r']|] eqn:E; [|discriminate].
    inversion H; subst. destruct (IH _ _ _ E) as [-> Hm].
    split; [reflexivity|]. unfold char_matches in Ec.
    destruct ic; apply Ascii.eqb_eq in Ec; simpl; congruence.
Qed.

Lemma match_alt_origin ic l prev s m r :
  match_alt ic l prev s = Some (m, r) ->
  exists k, In k l /\ match_literal ic k s = Some (m, r).
Proof.
  induction l as [|k l IH]; simpl; [discriminate|]. intros H.
  destruct (match_literal ic k s) as [[m' r']|] eqn:E.
  - destruct (word_boundary (last_char prev m') (head r')).
    + inversion H; subst. exists k. auto.
    + destruct (IH H) as (k' & ? & ?). exists k'. auto.
  - destruct (IH H) as (k' & ? & ?). exists k'. auto.
Qed.

Lemma finditer_from_origin ic alts s : forall prev pos skip p w,
  In (p, w) (finditer_from ic alts prev pos skip s) ->
  exists prev' s' r, match_here ic alts prev' s' = Some (w, r).
Proof.
  induction s as [|c s IH]; intros prev pos skip p w H; simpl in H;
    [contradiction|].
  destruct skip as [|n]; [|now apply IH in H].
  destruct (match_here ic alts prev (String c s)) as [[m r]|] eqn:E;
    [|now apply IH in H].
  destruct H as [H|H]; [|now apply IH in H].
  inversion H; subst. now exists prev, (String c s), r.
Qed.

Lemma finditer_match_key ic alts s p w :
  In (p, w) (finditer ic alts s) ->
  exists k, In k alts /\ (if ic then lower w = lower k else w = k).
Proof.
  intros H. apply finditer_from_origin in H as (prev & s' & r & H).
  unfold match_here in H.
  destruct (word_boundary prev (head s')); [|discriminate].
  apply match_alt_origin in H as (k & Hk & H).
  apply match_literal_text in H as [_ H]. now exists k.
Qed.

(** X10.  In a text whose characters are all code points below 256,
    every informal term the pattern finds, in whatever casing, has a
    suggestion in the table under its lower-case form: the issue message
    ends with that suggestion and the rewriter appends it in brackets,
    so on such a text neither uses its fallback.  (Above 255 the pattern
    also matches U+017F, U+0130 and U+0131 in place of s and i, and the
    lower-case form of such a match is no key of the table.) *)
Theorem informal_match_has_suggestion (s : string) (p : nat) (w : string) :
  In (p, w) (pattern_finditer INFORMAL_PATTERN s) ->
  exists suggestion,
    dict_get INFORMAL_MAP (lower w) = Some suggestion /\
    truthy suggestion = true /\
    repl_informal w = w ++ " (" ++ suggestion ++ ")" /\
    forall idx,
      message (informal_issue idx s (p, w)) =
      "Informal or vague word '" ++ w ++ "' in sentence " ++
      str_of_nat idx ++ ". " ++ suggestion.
Proof.
  intros H. apply finditer_match_key in H as (k & Hk & Hw). simpl in Hw.
  assert (Hc : informal_table_check = true) by (vm_compute; reflexivity).
  unfold informal_table_check in Hc. rewrite forallb_forall in Hc.
  specialize (Hc k Hk). apply andb_prop in Hc as [Hlow Hget].
  apply String.eqb_eq in Hlow. rewrite Hlow in Hw.
  destruct (dict_get INFORMAL_MAP k) as [v|] eqn:E; [|discriminate].
  exists v. split; [now rewrite Hw|]. split; [exact Hget|]. split.
  - unfold repl_informal. cbv zeta. now rewrite Hw, E, Hget.
  - intros idx. unfold informal_issue, dict_get_default.
    cbn [message snd]. now rewrite Hw, E.
Qed.

Lemma informal_match_has_suggestion_witness :
  exists suggestion,
    dict_get INFORMAL_MAP (lower "A Lot") = Some suggestion /\
    repl_informal "A Lot" = "A Lot (" ++ suggestion ++ ")".
Proof.
  destruct (informal_match_has_suggestion "There is A Lot here." 9 "A Lot")
    as (v & Hv & _ & Hr & _).
  - vm_compute. left. reflexivity.
  - exists v. split; [exact Hv | exact Hr].
Defined.

Section MatchPlaces.

Variable alts : list string.
Hypothesis alts_nonempty : Forall (fun k => truthy k = true) alts.

(** A reported match stands in the text at the reported offset, and the
    pattern matches there. *)
Lemma finditer_from_place : forall n s prev pos,
  String.length s <= n ->
  forall p w,
    In (p, w) (finditer_from false alts prev pos 0 s) ->
    exists pre post,
      s = pre ++ w ++ post /\ p = pos + String.length pre /\
      match_here false alts (last_char prev pre) (w ++ post) = Some (w, post).
Proof.
  induction n as [|n IH]; intros s prev pos Hlen p w H.
  { destruct s; [contradiction | simpl in Hlen; lia]. }
  destruct s as [|c s]; [contradiction|].
  destruct (match_here false alts prev (String c s)) as [[m r]|] eqn:E.
  - rewrite (finditer_from_match _ alts_nonempty _ _ _ _ _ E) in H.
    destruct (match_here_sound _ alts_nonempty _ _ _ _ E) as (_ & Hne & Es & _).
    destruct H as [H|H].
    + inversion H; subst p w. exists "", r. simpl.
      rewrite Nat.add_0_r, <- Es. auto.
    + apply IH in H as (pre & post & Er & Ep & Hm).
      * exists (m ++ pre), post.
        rewrite string_app_assoc, <- Er, string_length_app, last_char_app.
        repeat split; auto. lia.
      * rewrite Es, string_length_app in Hlen.
        destruct m; [discriminate|]. simpl in Hlen. lia.
  - rewrite (finditer_from_no_match _ _ _ _ _ E) in H.
    apply IH in H as (pre & post & Er & Ep & Hm); [|simpl in Hlen; lia].
    exists (String c pre), post. simpl. rewrite <- Er.
    repeat split; auto. lia.
Qed.

End MatchPlaces.

Lemma contraction_key_expansion k :
  In k (keys CONTRACTION_MAP) ->
  exists v, dict_get CONTRACTION_MAP k = Some v /\ repl_contraction k = v /\
            (v = k \/ (match_literal false k v = None /\
                       match_literal false v k = None)).
Proof.
  intros Hk.
  assert (Hc : contraction_table_check = true) by (vm_compute; reflexivity).
  unfold contraction_table_check in Hc. rewrite forallb_forall in Hc.
  specialize (Hc k Hk).
  destruct (dict_get CONTRACTION_MAP k) as [v|] eqn:E; [|discriminate].
  exists v. split; [reflexivity|]. split.
  - unfold repl_contraction, dict_get_default. now rewrite E.
  - apply orb_prop in Hc as [Hc|Hc].
    + left. now apply String.eqb_eq.
    + right. destruct (match_literal false k v), (match_literal false v k);
        try discriminate. now split.
Qed.

(** X11.  Every contraction the pattern reports is a key of the table,
    in the casing of the table, that stands in the text at the reported
    offset between two word boundaries; the rewriter finds its expansion
    at the first lookup. *)
Theorem contraction_match_is_key (s : string) (p : nat) (w : string) :
  In (p, w) (pattern_finditer CONTRACTION_PATTERN s) ->
  In w (keys CONTRACTION_MAP) /\
  whole_word_at s p w /\
  exists expansion,
    dict_get CONTRACTION_MAP w = Some expansion /\
    repl_contraction w = expansion.
Proof.
  intros H.
  apply (finditer_from_place _ contraction_keys_nonempty _ _ _ _ (le_n _))
    in H as (pre & post & Es & Ep & Hm).
  destruct (contraction_match _ _ _ _ Hm) as (Hk & _ & _ & Hpre & Hpost).
  split; [exact Hk|]. split.
  - exists pre, post. simpl in Ep. repeat split; auto.
  - destruct (contraction_key_expansion w Hk) as (v & Hv & Hr & _).
    now exists v.
Qed.

Lemma contraction_match_is_key_witness :
  In "it's" (keys CONTRACTION_MAP) /\ whole_word_at "Now it's late." 4 "it's".
Proof.
  destruct (contraction_match_is_key "Now it's late." 4 "it's") as (Hk & Hw & _).
  - vm_compute. left. reflexivity.
  - split; [exact Hk | exact Hw].
Defined.

Lemma sub_from_no_matches ic alts repl s : forall prev pos,
  finditer_from ic alts prev pos 0 s = [] ->
  sub_from ic alts repl prev 0 s = s.
Proof.
  induction s as [|c s IH]; intros prev pos H; [reflexivity|].
  simpl in H |- *.
  destruct (match_here ic alts prev (String c s)) as [[m r]|]; [discriminate|].
  f_equal. now apply (IH _ (S pos)).
Qed.

(** X12.  Where a pattern finds nothing, substitution returns the text
    as it is; so for a text with no contraction and no informal term the
    rewriter only collapses and trims the whitespace. *)
Theorem rewriter_without_matches (text : string) :
  pattern_finditer CONTRACTION_PATTERN text = [] ->
  pattern_finditer INFORMAL_PATTERN text = [] ->
  expand_contractions text = text /\
  clean_flat text = strip (collapse_spaces text).
Proof.
  intros Hc Hi.
  assert (E : expand_contractions text = text)
    by (apply (sub_from_no_matches _ _ _ _ None 0), Hc).
  split; [exact E|].
  unfold clean_flat. rewrite E. unfold pattern_sub, sub.
  now rewrite (sub_from_no_matches _ _ _ _ None 0 Hi).
Qed.

Lemma rewriter_without_matches_witness :
  clean_flat "  The  data are   clear. " = "The data are clear.".
Proof.
  destruct (rewriter_without_matches "  The  data are   clear. "
              ltac:(reflexivity) ltac:(reflexivity)) as [_ H].
  rewrite H. reflexivity.
Defined.

Lemma string_app_inv_head (a b c : string) : a ++ b = a ++ c -> b = c.
Proof.
  induction a as [|x a IH]; simpl; intros H; [assumption|].
  injection H. exact IH.
Qed.

(** In a text the contraction step leaves as it is, every match is of a
    key that is its own expansion. *)
Lemma unchanged_text_matches : forall n s prev pos,
  String.length s <= n ->
  expand_from prev s = s ->
  forall p w,
    In (p, w) (finditer_from false (keys CONTRACTION_MAP) prev pos 0 s) ->
    In w (keys CONTRACTION_MAP) /\ repl_contraction w = w.
Proof.
  induction n as [|n IH]; intros s prev pos Hlen Hfix p w H.
  { destruct s; [contradiction | simpl in Hlen; lia]. }
  destruct s as [|c s]; [contradiction|].
  destruct (match_here false (keys CONTRACTION_MAP) prev (String c s))
    as [[m r]|] eqn:E.
  - rewrite (finditer_from_match _ contraction_keys_nonempty _ _ _ _ _ E) in H.
    rewrite (expand_from_match _ _ _ _ E) in Hfix.
    destruct (contraction_match _ _ _ _ E) as (Hm & Hne & Es & _).
    rewrite Es in Hfix.
    destruct (contraction_key_expansion m Hm) as (v & _ & Hv & Hd).
    assert (Hvm : v = m).
    { destruct Hd as [Hd|[Hd1 Hd2]]; [exact Hd|]. exfalso.
      rewrite Hv in Hfix.
      destruct (string_app_eq_app _ _ _ _ Hfix) as [(e & Ee & _)|(x & e & Ee & _)].
      - rewrite Ee, match_literal_complete in Hd1. discriminate.
      - rewrite Ee, match_literal_complete in Hd2. discriminate. }
    rewrite Hv, Hvm in Hfix. apply string_app_inv_head in Hfix.
    destruct H as [H|H].
    + inversion H; subst p w. split; [exact Hm | congruence].
    + assert (Hlr : String.length r <= n).
      { rewrite Es, string_length_app in Hlen.
        destruct m; [discriminate|]. simpl in Hlen. lia. }
      exact (IH r (last_char prev m) (pos + String.length m) Hlr Hfix p w H).
  - rewrite (finditer_from_no_match _ _ _ _ _ E) in H.
    rewrite (expand_from_no_match _ _ _ E) in Hfix. injection Hfix as Hfix.
    assert (Hls : String.length s <= n) by (simpl in Hlen; lia).
    exact (IH s (Some c) (S pos) Hls Hfix p w H).
Qed.

(** X13.  After the contraction step the only key of the table the
    pattern still finds in the text is "cannot". *)
Theorem only_cannot_remains (text : string) (p : nat) (w : string) :
  In (p, w) (pattern_finditer CONTRACTION_PATTERN (expand_contractions text)) ->
  w = "cannot".
Proof.
  intros H.
  destruct (unchanged_text_matches _ (expand_contractions text) None 0 (le_n _)
              (expand_from_idempotent _ text None (le_n _)) p w H) as [Hk Hr].
  assert (Hc : fixed_key_is_cannot_check = true) by (vm_compute; reflexivity).
  unfold fixed_key_is_cannot_check in Hc. rewrite forallb_forall in Hc.
  specialize (Hc w Hk). rewrite Hr, String.eqb_refl in Hc.
  now apply String.eqb_eq in Hc.
Qed.

Lemma only_cannot_remains_witness :
  expand_contractions "We can't say it's done." = "We cannot say it is done." /\
  "cannot" = "cannot".
Proof.
  split; [reflexivity|].
  apply (only_cannot_remains "We can't say it's done." 3 "cannot").
  vm_compute. left. reflexivity.
Defined.

Lemma collapse_is_single_spaced b s :
  single_spaced_from b (collapse_spaces_from b s) = true.
Proof.
  revert b. induction s as [|c s IH]; intros b; [reflexivity|]. simpl.
  destruct (is_space c) eqn:Ec.
  - destruct b; [apply IH|]. simpl. apply IH.
  - simpl. rewrite Ec. apply IH.
Qed.

Lemma single_spaced_collapse b s :
  single_spaced_from b s = true -> collapse_spaces_from b s = s.
Proof.
  revert b. induction s as [|c s IH]; intros b H; [reflexivity|].
  simpl in H |- *. destruct (is_space c).
  - apply andb_prop in H as [H Hs]. apply andb_prop in H as [Hc Hb].
    apply Ascii.eqb_eq in Hc. apply negb_true_iff in Hb. subst.
    now rewrite IH.
  - now rewrite IH.
Qed.

Lemma single_spaced_weaken s :
  single_spaced_from true s = true -> single_spaced_from false s = true.
Proof.
  destruct s as [|c s]; [reflexivity|]. simpl.
  destruct (is_space c); [|auto]. rewrite andb_false_r. discriminate.
Qed.

Lemma single_spaced_lstrip b s :
  single_spaced_from b s = true -> single_spaced_from false (lstrip s) = true.
Proof.
  revert b. induction s as [|c s IH]; intros b H; [reflexivity|].
  simpl in H |- *. destruct (is_space c) eqn:Ec.
  - apply andb_prop in H as [_ H]. now apply (IH true).
  - simpl. now rewrite Ec.
Qed.

Lemma single_spaced_rstrip s : forall b,
  single_spaced_from b s = true -> single_spaced_from b (rstrip s) = true.
Proof.
  induction s as [|c s IH]; intros b H; [reflexivity|].
  simpl in H |- *. destruct (is_space c) eqn:Ec.
  - apply andb_prop in H as [H Hs]. specialize (IH true Hs).
    destruct (rstrip s) as [|d r]; [reflexivity|].
    cbn [single_spaced_from]. rewrite Ec, H. exact IH.
  - specialize (IH false H).
    destruct (rstrip s) as [|d r]; cbn [single_spaced_from]; now rewrite Ec.
Qed.

Lemma flattened_is_normal s :
  let flat := strip (collapse_spaces s) in
  strip flat = flat /\ collapse_spaces flat = flat /\ single_spaced flat = true.
Proof.
  cbv zeta.
  assert (H : single_spaced (strip (collapse_spaces s)) = true).
  { unfold single_spaced, strip, collapse_spaces.
    apply single_spaced_rstrip. eapply single_spaced_lstrip.
    apply collapse_is_single_spaced. }
  repeat split; [apply strip_idem | | exact H].
  now apply single_spaced_collapse.
Qed.

(** X14.  The text the rewriter hands to [fill] is trimmed and
    single-spaced: trimming it or collapsing its whitespace again changes
    nothing, and every whitespace character in it is a plain space with
    no other one next to it. *)
Theorem clean_flat_is_normal (text : string) :
  strip (clean_flat text) = clean_flat text /\
  collapse_spaces (clean_flat text) = clean_flat text /\
  single_spaced (clean_flat text) = true.
Proof. unfold clean_flat. apply flattened_is_normal. Qed.

(** *** The humaniser, whatever the random source *)

Lemma truthy_app_r a x b : truthy (a ++ String x b) = true.
Proof. destruct a; reflexivity. Qed.

Lemma all_space_collapse s : forall b,
  all_space s = true -> all_space (collapse_spaces_from b s) = true.
Proof.
  induction s as [|c s IH]; intros b H; [reflexivity|].
  simpl in H |- *. apply andb_prop in H as [Hc Hs]. rewrite Hc.
  destruct b; [now apply IH|]. simpl. now apply IH.
Qed.

Lemma rephrase_no_match s entry :
  finditer true [fst entry] s = [] -> Humaniser.rephrase s entry = s.
Proof. intros H. now apply (sub_from_no_matches _ _ _ _ None 0). Qed.

(** X15.  A text in which none of the six phrases is found is left as
    it is by the light rephrasings. *)
Theorem rephrasings_without_matches (text : string) :
  (forall entry, In entry Humaniser.LIGHT_REPHRASINGS ->
                 finditer true [fst entry] text = []) ->
  Humaniser.apply_light_rephrasings text = text.
Proof.
  unfold Humaniser.apply_light_rephrasings.
  induction Humaniser.LIGHT_REPHRASINGS as [|e l IH]; intros H; [reflexivity|].
  simpl. rewrite rephrase_no_match by (apply H; now left).
  apply IH. intros entry Hin. apply H. now right.
Qed.

Lemma rephrasings_without_matches_witness :
  Humaniser.apply_light_rephrasings "The data are clear." =
  "The data are clear.".
Proof.
  apply rephrasings_without_matches.
  intros entry Hin. simpl in Hin.
  repeat (destruct Hin as [<-|Hin]; [reflexivity|]). contradiction.
Defined.

Section HumaniserRuns.

Variable G : Type.
Variable random : G -> Q * G.
Variable randbelow : nat -> G -> nat * G.
Variable fill : string -> Z -> string.

(** The index [random.choice] draws is below the length it is given. *)
Hypothesis randbelow_in_range :
  forall n g, 0 < n -> fst (randbelow n g) < n.

Lemma random_choice_connector g :
  exists connector g',
    Humaniser.random_choice G randbelow Humaniser.ACADEMIC_CONNECTORS g =
      (Humaniser.Returned connector, g') /\
    In connector Humaniser.ACADEMIC_CONNECTORS.
Proof.
  unfold Humaniser.random_choice.
  pose proof (randbelow_in_range
                (List.length Humaniser.ACADEMIC_CONNECTORS) g
                ltac:(simpl; lia)) as Hi.
  destruct (randbelow (List.length Humaniser.ACADEMIC_CONNECTORS) g)
    as [i g'] eqn:E.
  simpl fst in Hi.
  destruct (nth_error Humaniser.ACADEMIC_CONNECTORS i) as [x|] eqn:En.
  - exists x, g'. split; [reflexivity|]. eapply nth_error_In, En.
  - apply nth_error_None in En. lia.
Qed.

Lemma academic_tone_returns sentence idx total g :
  truthy sentence = true ->
  exists t g',
    Humaniser.academic_tone G random randbelow sentence idx total g =
      (Humaniser.Returned t, g') /\
    toned sentence t /\
    (idx = 0 -> t = Humaniser.apply_light_rephrasings sentence) /\
    ((forall g0, Humaniser.Qltb (fst (random g0)) Humaniser.THRESHOLD = true) ->
     0 < idx < total -> with_connector sentence t).
Proof.
  intros Hs.
  pose proof (apply_light_rephrasings_truthy sentence Hs) as Hr.
  unfold Humaniser.academic_tone, Humaniser.bind.
  destruct ((0 <? idx)%nat && (idx <? total)%nat) eqn:Ec.
  - unfold Humaniser.random_random.
    destruct (random g) as [q g1] eqn:Eq.
    destruct (Humaniser.Qltb q Humaniser.THRESHOLD) eqn:Eb.
    + destruct (random_choice_connector g1) as (connector & g2 & Ech & Hin).
      rewrite Ech.
      destruct (Humaniser.apply_light_rephrasings sentence) as [|c r] eqn:Er;
        [discriminate|].
      simpl. unfold Humaniser.ret. rewrite truthy_app_r.
      assert (Hw : with_connector sentence (connector ++ String (lower_char c) r)).
      { exists connector. split; [exact Hin|]. now rewrite Er. }
      exists (connector ++ String (lower_char c) r), g2.
      repeat split; auto.
      * now right.
      * intros ->. discriminate.
    + simpl. unfold Humaniser.ret. rewrite Hr.
      exists (Humaniser.apply_light_rephrasings sentence), g1.
      repeat split; auto.
      * now left.
      * intros Hall _. specialize (Hall g). rewrite Eq in Hall.
        simpl in Hall. congruence.
  - simpl. unfold Humaniser.ret. rewrite Hr.
    exists (Humaniser.apply_light_rephrasings sentence), g.
    repeat split; auto.
    + now left.
    + intros _ [H1 H2]. apply Nat.ltb_lt in H1, H2.
      rewrite H1, H2 in Ec. discriminate.
Qed.

Lemma tone_loop_returns total sentences : forall idx new g,
  Forall (fun s => truthy s = true) sentences ->
  exists pieces g',
    Humaniser.tone_loop G random randbelow total idx sentences new g =
      (Humaniser.Returned (new ++ pieces)%list, g') /\
    Forall2 toned sentences pieces /\
    (idx = 0 ->
     hd_error pieces =
     option_map Humaniser.apply_light_rephrasings (hd_error sentences)) /\
    ((forall g0, Humaniser.Qltb (fst (random g0)) Humaniser.THRESHOLD = true) ->
     0 < idx -> idx + List.length sentences <= total ->
     Forall2 with_connector sentences pieces).
Proof.
  induction sentences as [|s rest IH]; intros idx new g Hall.
  - exists [], g. simpl. rewrite app_nil_r. repeat split; auto; constructor.
  - inversion Hall as [|? ? Hs Hrest]; subst.
    destruct (academic_tone_returns s idx total g Hs)
      as (t & g1 & H1 & Ht & Hfirst & Hconn).
    destruct (IH (S idx) (new ++ [t])%list g1 Hrest)
      as (pieces & g2 & H2 & Hp & _ & Hconns).
    exists (t :: pieces), g2. simpl. unfold Humaniser.bind at 1.
    rewrite H1, H2, <- app_assoc. repeat split; auto.
    + intros ->. simpl. now rewrite Hfirst.
    + intros Hlow Hidx Hlen. simpl in Hlen. constructor.
      * apply Hconn; [exact Hlow | lia].
      * apply Hconns; [exact Hlow | lia | lia].
Qed.

(** Whatever is drawn, the humaniser hands to [fill] one piece for each
    sentence, and the first piece is the light rephrasing of the first
    sentence. *)
Lemma humanise_pieces (text : string) (wrap : Z) (g : G) :
  exists pieces g',
    Humaniser.humanise_uk_academic G random randbelow fill text wrap g =
      (Humaniser.Returned
         (if truthy (strip (collapse_spaces text))
          then fill (join " " pieces) wrap else ""), g') /\
    Forall2 toned
      (Humaniser.split_sentences (strip (collapse_spaces text))) pieces /\
    hd_error pieces =
      option_map Humaniser.apply_light_rephrasings
        (hd_error (Humaniser.split_sentences (strip (collapse_spaces text)))).
Proof.
  unfold Humaniser.humanise_uk_academic. cbv zeta.
  destruct (truthy (strip (collapse_spaces text))) eqn:E; simpl.
  - set (sentences := Humaniser.split_sentences (strip (collapse_spaces text))).
    destruct (tone_loop_returns (List.length sentences) sentences 0 [] g
                (humaniser_split_truthy _))
      as (pieces & g' & H & Hp & Hfirst & _).
    exists pieces, g'. unfold Humaniser.bind. rewrite H.
    repeat split; auto.
  - exists [], g. destruct (strip (collapse_spaces text)); [|discriminate].
    repeat split; constructor.
Qed.

(** X16.  If [random.choice] draws an index below the number of
    connectors and the width is positive, as [fill] requires, the
    humaniser does not raise: [s[0]] is never taken of an empty string.
    It returns the empty string for a text that flattens to nothing, and
    otherwise [fill] of the single-space join of one piece for each
    sentence, in order: the light rephrasing of the sentence, or a
    connector of the list followed by that rephrasing with its first
    character in lower case.  The first piece never has a connector.
    [main], which wraps at width 90, prints the result. *)
Theorem humaniser_returns (text : string) (wrap : Z) (g : G) :
  (0 < wrap)%Z ->
  let flat := strip (collapse_spaces text) in
  let sentences := Humaniser.split_sentences flat in
  exists pieces g',
    Humaniser.humanise_uk_academic G random randbelow fill text wrap g =
      (Humaniser.Returned
         (if truthy flat then fill (join " " pieces) wrap else ""), g') /\
    Forall2 toned sentences pieces /\
    hd_error pieces =
      option_map Humaniser.apply_light_rephrasings (hd_error sentences) /\
    exists printed g'',
      Humaniser.main G random randbelow fill text g =
      (Humaniser.Returned printed, g'').
Proof.
  intros _. cbv zeta.
  destruct (humanise_pieces text wrap g) as (pieces & g' & H & Hp & Hfirst).
  exists pieces, g'. repeat split; auto.
  destruct (humanise_pieces text 90%Z g) as (pieces' & g'' & H' & _).
  unfold Humaniser.main, Humaniser.bind. rewrite H'.
  now eexists _, _.
Qed.

(** X17.  If moreover every draw of [random.random] is below the
    threshold, every sentence but the first gets a connector. *)
Theorem humaniser_always_inserting (text : string) (wrap : Z) (g : G) :
  (forall g0, Humaniser.Qltb (fst (random g0)) Humaniser.THRESHOLD = true) ->
  truthy (strip (collapse_spaces text)) = true ->
  exists first others pieces g',
    Humaniser.split_sentences (strip (collapse_spaces text)) = first :: others /\
    Humaniser.humanise_uk_academic G random randbelow fill text wrap g =
      (Humaniser.Returned
         (fill (join " " (Humaniser.apply_light_rephrasings first :: pieces))
               wrap), g') /\
    Forall2 with_connector others pieces.
Proof.
  intros Hlow Hne.
  unfold Humaniser.humanise_uk_academic. cbv zeta. rewrite Hne. simpl.
  pose proof (humaniser_split_truthy (strip (collapse_spaces text))) as Hall.
  destruct (Humaniser.split_sentences (strip (collapse_spaces text)))
    as [|first others] eqn:Es.
  - exfalso.
    pose proof (split_sentences_drop_spaces (strip (collapse_spaces text)))
      as Hk.
    change (split_sentences (strip (collapse_spaces text)))
      with (Humaniser.split_sentences (strip (collapse_spaces text))) in Hk.
    rewrite Es in Hk. simpl in Hk.
    destruct (flattened_is_normal text) as (Hstrip & _).
    destruct (lstrip_fixed (lstrip (collapse_spaces text)) (lstrip_idem _))
      as [E|(c & r & E & Hc)].
    + unfold strip in Hne. rewrite E in Hne. discriminate.
    + unfold strip in Hk. rewrite drop_spaces_rstrip, E in Hk.
      simpl in Hk. rewrite Hc in Hk. discriminate.
  - inversion Hall as [|? ? Hf Ho]; subst.
    destruct (academic_tone_returns first 0 (List.length (first :: others)) g Hf)
      as (t & g1 & H1 & _ & Hfirst & _).
    rewrite (Hfirst eq_refl) in H1.
    destruct (tone_loop_returns (List.length (first :: others)) others 1
                [Humaniser.apply_light_rephrasings first] g1 Ho)
      as (pieces & g2 & H2 & _ & _ & Hconn).
    exists first, others, pieces, g2. split; [reflexivity|]. split.
    + unfold Humaniser.bind at 1. cbn [Humaniser.tone_loop].
      unfold Humaniser.bind at 1. rewrite H1.
      cbn [app]. rewrite H2. reflexivity.
    + apply Hconn; [exact Hlow | lia | simpl; lia].
Qed.

End HumaniserRuns.

(** C6.  A connector is never prepended to the first sentence, whatever
    the random source does: [academic_tone] at index 0 draws nothing and
    returns the light rephrasing, and in every run of the humaniser, with
    [random.choice] picking within the list and a positive width, the
    text handed to [fill] starts with the light rephrasing of the first
    sentence, followed by one piece for each other sentence.  When every
    draw of the random source is at least the threshold 0.35, the
    humaniser returns the wrapped single-space join of the
    light-rephrased sentences of the flattened text (the empty string
    for a text that flattens to nothing), so no connector is inserted
    and every sentence keeps its place. *)
Theorem humaniser_without_insertion
  (G : Type) (random : G -> Q * G) (randbelow : nat -> G -> nat * G)
  (fill : string -> Z -> string) :
  (forall sentence total g,
     Humaniser.academic_tone G random randbelow sentence 0 total g =
     (Humaniser.Returned
        (if truthy (Humaniser.apply_light_rephrasings sentence)
         then Humaniser.apply_light_rephrasings sentence else sentence), g)) /\
  ((forall g, (Humaniser.THRESHOLD <= fst (random g))%Q) ->
   forall text wrap g,
     fst (Humaniser.humanise_uk_academic G random randbelow fill text wrap g) =
     Humaniser.Returned
       (let flat := strip (collapse_spaces text) in
        if truthy flat
        then fill (join " " (map Humaniser.apply_light_rephrasings
                                 (Humaniser.split_sentences flat))) wrap
        else "")) /\
  ((forall n g, 0 < n -> fst (randbelow n g) < n) ->
   forall text wrap g first others,
     (0 < wrap)%Z ->
     Humaniser.split_sentences (strip (collapse_spaces text)) =
       first :: others ->
     exists pieces g',
       Humaniser.humanise_uk_academic G random randbelow fill text wrap g =
         (Humaniser.Returned
            (fill (join " "
                     (Humaniser.apply_light_rephrasings first :: pieces))
                  wrap), g') /\
       Forall2 toned others pieces).
Proof.
  split; [apply academic_tone_first|].
  split; [apply humanise_stubbed|].
  intros Hrange text wrap g first others _ Es.
  destruct (humanise_pieces G random randbelow fill Hrange text wrap g)
    as (pieces & g' & H & Hp & Hfirst).
  rewrite Es in Hp, Hfirst. simpl in Hfirst.
  destruct pieces as [|t pieces]; [discriminate|].
  simpl in Hfirst. injection Hfirst as ->.
  inversion Hp as [|? ? ? ? _ Hrest]; subst.
  exists pieces, g'. split; [|exact Hrest].
  rewrite H.
  destruct (strip (collapse_spaces text)) eqn:Ef; [discriminate Es|].
  reflexivity.
Qed.

Lemma humaniser_without_insertion_witness :
  fst (Humaniser.humanise_uk_academic nat
         (fun g => (1 # 2, S g)) (fun _ g => (0, S g)) (fun s _ => s)
         "In conclusion  it works. Yes.  It does" 90%Z 0) =
  Humaniser.Returned "overall it works. Yes. It does" /\
  exists pieces,
    fst (Humaniser.humanise_uk_academic nat
           (fun g => (1 # 4, S g)) (fun _ g => (0, S g)) (fun s _ => s)
           "It works. Yes." 90%Z 0) =
    Humaniser.Returned (join " " ("It works." :: pieces)).
Proof.
  split.
  - refine (proj1 (proj2 (humaniser_without_insertion nat
              (fun g => (1 # 2, S g)) (fun _ g => (0, S g)) (fun s _ => s)))
              _ "In conclusion  it works. Yes.  It does" 90%Z 0).
    intros g. simpl. unfold Humaniser.THRESHOLD, Qle. simpl. lia.
  - destruct (proj2 (proj2 (humaniser_without_insertion nat
                (fun g => (1 # 4, S g)) (fun _ g => (0, S g)) (fun s _ => s)))
                ltac:(intros n g Hn; simpl in *; lia)
                "It works. Yes." 90%Z 0 "It works." ["Yes."]
                ltac:(reflexivity) ltac:(reflexivity))
      as (pieces & g' & H & _).
    exists pieces. rewrite H. reflexivity.
Defined.

Lemma humaniser_always_inserting_witness :
  exists pieces,
    fst (Humaniser.humanise_uk_academic nat
           (fun g => (1 # 4, S g)) (fun _ g => (0, S g)) (fun s _ => s)
           "It works. Yes." 90%Z 0) =
    Humaniser.Returned (join " " ("It works." :: pieces)).
Proof.
  destruct (humaniser_always_inserting nat
              (fun g => (1 # 4, S g)) (fun _ g => (0, S g)) (fun s _ => s)
              ltac:(intros n g Hn; simpl in *; lia)
              "It works. Yes." 90%Z 0
              ltac:(intros g; reflexivity) ltac:(reflexivity))
    as (first & others & pieces & g' & Es & H & _).
  vm_compute in Es. injection Es as <- <-.
  exists pieces. rewrite H. reflexivity.
Defined.

Lemma humaniser_returns_witness :
  exists printed g,
    Humaniser.main nat (fun g => (1 # 4, S g)) (fun _ g => (0, S g))
      (fun s _ => s) "It works. Yes." 0 = (Humaniser.Returned printed, g).
Proof.
  destruct (humaniser_returns nat
              (fun g => (1 # 4, S g)) (fun _ g => (0, S g)) (fun s _ => s)
              ltac:(intros n g Hn; simpl in *; lia)
              "It works. Yes." 90%Z 0 ltac:(reflexivity))
    as (_ & _ & _ & _ & _ & printed & g & H).
  now exists printed, g.
Defined.

(** X18.  A text of whitespace only, the empty text included, is
    humanised to the empty string: nothing is drawn from the random
    source and [fill] is not called. *)
Theorem humaniser_on_blank_text
  (G : Type) (random : G -> Q * G) (randbelow : nat -> G -> nat * G)
  (fill : string -> Z -> string) (text : string) (wrap : Z) (g : G) :
  all_space text = true ->
  Humaniser.humanise_uk_academic G random randbelow fill text wrap g =
  (Humaniser.Returned "", g).
Proof.
  intros H. unfold Humaniser.humanise_uk_academic. cbv zeta.
  rewrite (strip_only_space (collapse_spaces text))
    by now apply all_space_collapse.
  reflexivity.
Qed.

Lemma humaniser_on_blank_text_witness :
  Humaniser.humanise_uk_academic nat
    (fun g => (1 # 4, S g)) (fun _ g => (4, S g)) (fun s _ => "wrapped")
    "    " 90%Z 0 = (Humaniser.Returned "", 0).
Proof. apply humaniser_on_blank_text. reflexivity. Defined.

(** *** The report and the command line *)

Lemma print_issues_app a : forall i b,
  print_issues i (a ++ b) =
  print_issues i a ++ print_issues (i + List.length a) b.
Proof.
  induction a as [|x a IH]; intros i b.
  - simpl. now rewrite Nat.add_0_r.
  - change ((x :: a) ++ b)%list with (x :: (a ++ b))%list.
    cbn [print_issues List.length]. rewrite IH.
    replace (S i + List.length a) with (i + S (List.length a)) by lia.
    now rewrite !string_app_assoc.
Qed.

(** X19.  The report lists the issues in the order of the list and
    numbers each by its position, counted from 1: the issue after
    [before] is printed as number [length before + 1], between the blocks
    of the issues before it and those of the issues after it. *)
Theorem print_report_numbers_issues
  (sentences : list string) (before after : list issue) (x : issue) :
  print_report sentences (before ++ x :: after) =
  print ("=== Style Analysis (UK Academic) ===" ++ line_feed) ++
  print ("Total sentences: " ++ str_of_nat (List.length sentences)) ++
  print ("Total issues found: " ++
         str_of_nat (List.length before + 1 + List.length after) ++ line_feed) ++
  print_issues 1 before ++
  issue_block (List.length before + 1) x ++
  print_issues (List.length before + 2) after.
Proof.
  unfold print_report.
  replace (List.length (before ++ x :: after))
    with (List.length before + 1 + List.length after)
    by (rewrite length_app; simpl; lia).
  do 3 f_equal.
  destruct (before ++ x :: after)%list eqn:E;
    [now destruct before|]. rewrite <- E.
  rewrite print_issues_app. f_equal.
  cbn [print_issues]. unfold issue_block.
  rewrite !string_app_assoc.
  replace (S (1 + List.length before)) with (List.length before + 2) by lia.
  replace (1 + List.length before) with (List.length before + 1) by lia.
  reflexivity.
Qed.

(** X20.  The flag [--nowrap] changes nothing: with or without it the
    program prints the same, and with [--clean] on a text that is not
    blank the last thing printed is the rewritten text wrapped by [fill]
    at width 90. *)
Theorem nowrap_has_no_effect
  (fill : string -> Z -> string) (args : arguments) (isatty : bool)
  (stdin : string) :
  main fill (mkArguments (clean args) true) isatty stdin =
  main fill (mkArguments (clean args) false) isatty stdin /\
  (truthy (strip stdin) = true -> clean args = true ->
   exists before,
     main fill args isatty stdin =
     before ++ print (fill (clean_flat stdin) 90%Z)).
Proof.
  split; [reflexivity|].
  intros Hne Hc. unfold main. cbv zeta. rewrite Hne, Hc. simpl negb. cbv iota.
  destruct (analyse_text stdin) as [sentences issues].
  assert (Hw : or_else (if nowrap args then None else Some 90%Z) 90 = 90%Z)
    by (destruct (nowrap args); reflexivity).
  rewrite Hw. unfold clean_text.
  eexists. rewrite <- !string_app_assoc. reflexivity.
Qed.

Lemma nowrap_has_no_effect_witness :
  exists before,
    main (fun s _ => s) (mkArguments true true) false "We can't go." =
    before ++ print "We cannot go.".
Proof.
  destruct (nowrap_has_no_effect (fun s _ => s) (mkArguments true true) false
              "We can't go.") as [_ H].
  destruct (H ltac:(reflexivity) ltac:(reflexivity)) as [before Hb].
  exists before. rewrite Hb. reflexivity.
Defined.

(** *** What the token pattern hands back *)

Lemma match_token_group s m :
  match_token s = Some m ->
  snd m = None \/ exists w, snd m = Some (String "'" w).
Proof.
  unfold match_token.
  destruct (span_word s) as [[|c w] r]; [discriminate|].
  destruct r as [|d r]; [intros H; inversion H; now left|].
  destruct (d =? "'")%char; [|intros H; inversion H; now left].
  destruct (span_word r) as [[|c2 w2] r2]; intros H; inversion H;
    [now left | right; now eexists].
Qed.

Lemma token_matches_groups s : forall skip,
  Forall (fun m => snd m = None \/ exists w, snd m = Some (String "'" w))
         (token_matches_from skip s).
Proof.
  induction s as [|c s IH]; intros skip; simpl; [constructor|].
  destruct skip as [|n]; [|apply IH].
  destruct (match_token (String c s)) as [m|] eqn:E; [|apply IH].
  constructor; [exact (match_token_group _ _ E) | apply IH].
Qed.

Lemma findall_groups s :
  Forall (fun g => g = "" \/ exists w, g = String "'" w)
         (findall_token_group s).
Proof.
  unfold findall_token_group.
  pose proof (token_matches_groups s 0) as H.
  induction H as [|m l Hm _ IH]; simpl; constructor; [|exact IH].
  destruct Hm as [->|(w & ->)]; [now left | right; now exists w].
Qed.

Lemma lower_app a b : lower (a ++ b) = lower a ++ lower b.
Proof. induction a as [|c a IH]; simpl; [reflexivity | now rewrite IH]. Qed.

(** X21.  What [findall] returns for a sentence are not its words: each
    element is empty or starts with an apostrophe.  So no opening key
    the analysis records starts with a word character. *)
Theorem recorded_key_never_starts_with_a_word (text : string) :
  (forall s, Forall (fun g => g = "" \/ exists w, g = String "'" w)
                    (findall_token_group s)) /\
  Forall (fun key => opt_word (head key) = false) (recorded_starts text).
Proof.
  split; [apply findall_groups|].
  unfold recorded_starts. rewrite sentence_loop_starts. simpl.
  apply Forall_forall. intros key Hk.
  apply in_map_iff in Hk as (s & <- & _).
  pose proof (findall_groups s) as H. unfold sentence_start.
  destruct (findall_token_group s) as [|a [|b l]]; simpl; [reflexivity | |].
  - inversion H as [|? ? [->|(w & ->)] _]; reflexivity.
  - inversion H as [|? ? [->|(w & ->)] _]; subst; simpl.
    + unfold join. simpl. destruct b; reflexivity.
    + reflexivity.
Qed.

(** X22.  The analysis emits one contraction issue for each match of
    the contraction pattern and one informal issue for each match of
    the informal pattern, sentence by sentence and in the order of the
    matches. *)
Theorem one_issue_per_match (text : string) :
  issues_of contraction (snd (analyse_text text)) =
    flat_map contraction_issues_at (enumerate 1 (split_sentences text)) /\
  issues_of informal (snd (analyse_text text)) =
    flat_map informal_issues_at (enumerate 1 (split_sentences text)).
Proof.
  rewrite analyse_text_unfold. simpl. rewrite !issues_of_app.
  rewrite !(issues_of_none _ (repeated_loop _ _ _ _ _))
    by (eapply Forall_impl; [|apply repeated_loop_types];
        intros i Hi; rewrite Hi; discriminate).
  rewrite !app_nil_r, !issues_of_flat_map.
  split; apply flat_map_ext; intros p;
    unfold issues_at, sentence_issues, contraction_issues_at, informal_issues_at;
    rewrite !issues_of_app;
    rewrite ?(issues_of_map contraction contraction),
      ?(issues_of_map contraction informal),
      ?(issues_of_map contraction first_person),
      ?(issues_of_map informal contraction),
      ?(issues_of_map informal informal),
      ?(issues_of_map informal first_person) by reflexivity;
    simpl; rewrite ?app_nil_r; unfold length_issues;
    destruct (35 <? _)%nat; [|destruct (_ <? 7)%nat| |destruct (_ <? 7)%nat];
    reflexivity.
Qed.
